(** * Connect Four with a minimax opponent: a model of [sourcecode.py]

    The development embeds the class [ConnectFour] of [sourcecode.py]:
    the grid and its move operations, the win check, the static
    evaluator, the alpha-beta search and the move selection, and proves
    properties of them.

    Conventions of the embedding.
    - Python integers are [Z]; a cell holds [0] (empty), [1] (the human,
      PlayerA) or [2] (the automated player, PlayerB).
    - [self.board] is a list of rows, row [0] being the TOP of the grid:
      pieces fall towards row [rows - 1].
    - A method that mutates [self.board] takes the game and returns the
      game it leaves behind, next to its Python result.
    - [float('inf')] and [-float('inf')] are the two extra points of
      [ext]; Python compares them with integers exactly.
    - Recursion of [minimax] is bounded by a [fuel] argument: [None] means
      that the fuel ran out, never a Python result.  Theorems show that
      any fuel above the number of empty cells is enough.
    - A list read in range is Python's; a negative index counts from the
      end as in Python.  [IndexError] is not modelled: a read out of
      range gives [0], a write out of range does nothing.  On a
      well-formed grid ([wf]) the methods only index in range.
    - [print] and [input] are left out. *)

From Stdlib Require Import ZArith List Bool Lia Sorted.
From stdpp Require Import base tactics option list list_numbers.
Import ListNotations.

Local Open Scope Z_scope.

(** ** Python values *)

(** Scores mix integers with the two float infinities. *)
Inductive ext : Type :=
| NegInf
| Fin (z : Z)
| PosInf.

(** [a < b] on Python numbers. *)
Definition ext_lt (a b : ext) : bool :=
  match a, b with
  | NegInf, NegInf => false
  | NegInf, _ => true
  | Fin _, NegInf => false
  | Fin x, Fin y => x <? y
  | Fin _, PosInf => true
  | PosInf, _ => false
  end.

(** [a >= b] is [not (a < b)] on these totally ordered values. *)
Definition ext_ge (a b : ext) : bool := negb (ext_lt a b).

(** [max(a, b)]: Python keeps the first argument unless the second is
    strictly larger. *)
Definition ext_max (a b : ext) : ext := if ext_lt a b then b else a.

(** [min(a, b)]: Python keeps the first argument unless the second is
    strictly smaller. *)
Definition ext_min (a b : ext) : ext := if ext_lt b a then b else a.

(** [range(lo, hi)]. *)
Definition range (lo hi : Z) : list Z := seqZ lo (hi - lo).

(** [range(start, stop, -1)]: [start, start - 1, ..., stop + 1]. *)
Definition range_desc (start stop : Z) : list Z :=
  reverse (seqZ (stop + 1) (start - stop)).

(** Position of index [i] in a list of length [len]: a negative index
    counts from the end. *)
Definition py_index (len : nat) (i : Z) : nat :=
  Z.to_nat (if i <? 0 then Z.of_nat len + i else i).

(** [l.count(x)] *)
Definition count (l : list Z) (x : Z) : Z := Z.of_nat (count_occ Z.eq_dec l x).

(** A [for] loop that threads one variable through its body. *)
Definition for_loop {A S : Type} (l : list A) (body : A -> S -> S) (s : S) : S :=
  fold_left (fun s x => body x s) l s.

(** ** The game object *)

Record ConnectFour : Type := mkGame {
  rows : Z;
  cols : Z;
  board : list (list Z);
  current_player : Z;
  game_over : bool;
  winner : option Z
}.

(** [__init__(rows, cols)] *)
Definition init (nrows ncols : Z) : ConnectFour :=
  {| rows := nrows;
     cols := ncols;
     board := replicate (Z.to_nat nrows) (replicate (Z.to_nat ncols) 0);
     current_player := 1;
     game_over := false;
     winner := None |}.

(** [self.board[r][c]] *)
Definition cell (g : ConnectFour) (r c : Z) : Z :=
  let row := default [] (board g !! py_index (length (board g)) r) in
  default 0 (row !! py_index (length row) c).

(** [self.board[r][c] = v] *)
Definition set_cell (g : ConnectFour) (r c v : Z) : ConnectFour :=
  let i := py_index (length (board g)) r in
  let row := default [] (board g !! i) in
  {| rows := rows g;
     cols := cols g;
     board := <[i := <[py_index (length row) c := v]> row]> (board g);
     current_player := current_player g;
     game_over := game_over g;
     winner := winner g |}.

(** The grid has the shape [__init__] gives it, for positive sizes. *)
Definition wf (g : ConnectFour) : Prop :=
  0 < rows g /\ 0 < cols g /\
  length (board g) = Z.to_nat (rows g) /\
  Forall (fun row => length row = Z.to_nat (cols g)) (board g).

(** ** Board operations *)

Definition is_valid_move (g : ConnectFour) (col : Z) : bool :=
  (0 <=? col) && (col <? cols g) && (cell g 0 col =? 0).

Definition get_valid_moves (g : ConnectFour) : list Z :=
  List.filter (is_valid_move g) (range 0 (cols g)).

(** [make_move]: the Python result and the game after the call. *)
Definition make_move (g : ConnectFour) (col player : Z) : bool * ConnectFour :=
  if negb (is_valid_move g col) then (false, g)
  else
    match List.find (fun row => cell g row col =? 0) (range_desc (rows g - 1) (-1)) with
    | Some row => (true, set_cell g row col player)
    | None => (false, g)
    end.

(** The four cells [f 0 .. f 3] all pass: [all(... for i in range(4))]. *)
Definition all4 (f : Z -> bool) : bool := forallb f (range 0 4).

Definition check_winner (g : ConnectFour) (player : Z) : bool :=
  (* horizontal *)
  existsb (fun row => existsb (fun col =>
    all4 (fun i => cell g row (col + i) =? player))
    (range 0 (cols g - 3))) (range 0 (rows g))
  (* vertical *)
  || existsb (fun row => existsb (fun col =>
    all4 (fun i => cell g (row + i) col =? player))
    (range 0 (cols g))) (range 0 (rows g - 3))
  (* diagonal, top-left to bottom-right *)
  || existsb (fun row => existsb (fun col =>
    all4 (fun i => cell g (row + i) (col + i) =? player))
    (range 0 (cols g - 3))) (range 0 (rows g - 3))
  (* diagonal, top-right to bottom-left *)
  || existsb (fun row => existsb (fun col =>
    all4 (fun i => cell g (row + i) (col - i) =? player))
    (range 3 (cols g))) (range 0 (rows g - 3)).

Definition is_board_full (g : ConnectFour) : bool :=
  forallb (fun col => negb (cell g 0 col =? 0)) (range 0 (cols g)).

(** ** Static evaluation *)

Definition evaluate_window (window : list Z) (player : Z) : Z :=
  let opponent := 3 - player in
  let score := 0 in
  let score :=
    if count window player =? 4 then score + 100
    else if (count window player =? 3) && (count window 0 =? 1) then score + 5
    else if (count window player =? 2) && (count window 0 =? 2) then score + 2
    else score in
  let score :=
    if (count window opponent =? 3) && (count window 0 =? 1) then score - 4
    else score in
  score.

Definition evaluate_board (g : ConnectFour) (player : Z) : Z :=
  let score := 0 in
  let center_col := cols g / 2 in
  let center_array := map (fun row => cell g row center_col) (range 0 (rows g)) in
  let center_count := count center_array player in
  let score := score + center_count * 3 in
  (* horizontal windows *)
  let score :=
    for_loop (range 0 (rows g)) (fun row =>
      for_loop (range 0 (cols g - 3)) (fun col score =>
        let window := map (fun i => cell g row (col + i)) (range 0 4) in
        score + evaluate_window window player)) score in
  (* vertical windows *)
  let score :=
    for_loop (range 0 (rows g - 3)) (fun row =>
      for_loop (range 0 (cols g)) (fun col score =>
        let window := map (fun i => cell g (row + i) col) (range 0 4) in
        score + evaluate_window window player)) score in
  (* diagonal windows, top-left to bottom-right *)
  let score :=
    for_loop (range 0 (rows g - 3)) (fun row =>
      for_loop (range 0 (cols g - 3)) (fun col score =>
        let window := map (fun i => cell g (row + i) (col + i)) (range 0 4) in
        score + evaluate_window window player)) score in
  (* diagonal windows, top-right to bottom-left *)
  let score :=
    for_loop (range 0 (rows g - 3)) (fun row =>
      for_loop (range 3 (cols g)) (fun col score =>
        let window := map (fun i => cell g (row + i) (col - i)) (range 0 4) in
        score + evaluate_window window player)) score in
  score.

Definition get_next_open_row (g : ConnectFour) (col : Z) : Z :=
  match List.find (fun row => cell g row col =? 0) (range_desc (rows g - 1) (-1)) with
  | Some row => row
  | None => -1
  end.

(** ** Search *)

(** [valid_moves[0] if valid_moves else 0] *)
Definition fallback_column (valid_moves : list Z) : Z :=
  match valid_moves with
  | c :: _ => c
  | [] => 0
  end.

(** What a call of [minimax] gives back: the column ([None] at a leaf),
    the score, and the game object as the call leaves it. *)
Definition outcome : Type := (option Z * ext) * ConnectFour.

(** The loop of the maximizing branch over the remaining [moves], with
    the loop variables [value], [best_column], [alpha].  [rec alpha beta]
    is the recursive call [self.minimax(depth-1, alpha, beta, False)].
    With [prune = false] the [break] is left out. *)
Fixpoint max_loop (prune : bool)
    (rec : ext -> ext -> ConnectFour -> option outcome)
    (moves : list Z) (value : ext) (best_column : Z) (alpha beta : ext)
    (g : ConnectFour) : option (Z * ext * ConnectFour) :=
  match moves with
  | [] => Some (best_column, value, g)
  | col :: moves' =>
    let row := get_next_open_row g col in
    let g := set_cell g row col 2 in
    '(res, g) ← rec alpha beta g;
    let new_score := snd res in
    let g := set_cell g row col 0 in
    let '(value, best_column) :=
      if ext_lt value new_score then (new_score, col) else (value, best_column) in
    let alpha := ext_max alpha value in
    if prune && ext_ge alpha beta then Some (best_column, value, g)
    else max_loop prune rec moves' value best_column alpha beta g
  end.

(** The loop of the minimizing branch. *)
Fixpoint min_loop (prune : bool)
    (rec : ext -> ext -> ConnectFour -> option outcome)
    (moves : list Z) (value : ext) (best_column : Z) (alpha beta : ext)
    (g : ConnectFour) : option (Z * ext * ConnectFour) :=
  match moves with
  | [] => Some (best_column, value, g)
  | col :: moves' =>
    let row := get_next_open_row g col in
    let g := set_cell g row col 1 in
    '(res, g) ← rec alpha beta g;
    let new_score := snd res in
    let g := set_cell g row col 0 in
    let '(value, best_column) :=
      if ext_lt new_score value then (new_score, col) else (value, best_column) in
    let beta := ext_min beta value in
    if prune && ext_ge alpha beta then Some (best_column, value, g)
    else min_loop prune rec moves' value best_column alpha beta g
  end.

(** [minimax], with a switch for the pruning [break]. *)
Fixpoint minimax_with (prune : bool) (fuel : nat) (depth : Z) (alpha beta : ext)
    (maximizing_player : bool) (g : ConnectFour) {struct fuel} : option outcome :=
  match fuel with
  | O => None
  | S fuel =>
    let valid_moves := get_valid_moves g in
    let is_terminal := check_winner g 1 || check_winner g 2 || is_board_full g in
    if (depth =? 0) || is_terminal then
      if check_winner g 2 then Some ((None, Fin 1000000000), g)
      else if check_winner g 1 then Some ((None, Fin (-1000000000)), g)
      else if is_board_full g then Some ((None, Fin 0), g)
      else Some ((None, Fin (evaluate_board g 2)), g)
    else if maximizing_player then
      let value := NegInf in
      let best_column := fallback_column valid_moves in
      '(best_column, value, g) ←
        max_loop prune (fun a b => minimax_with prune fuel (depth - 1) a b false)
          valid_moves value best_column alpha beta g;
      Some ((Some best_column, value), g)
    else
      let value := PosInf in
      let best_column := fallback_column valid_moves in
      '(best_column, value, g) ←
        min_loop prune (fun a b => minimax_with prune fuel (depth - 1) a b true)
          valid_moves value best_column alpha beta g;
      Some ((Some best_column, value), g)
  end.

(** [minimax] as the source has it. *)
Definition minimax : nat -> Z -> ext -> ext -> bool -> ConnectFour -> option outcome :=
  minimax_with true.

(** The same recursion with the two [if alpha >= beta: break] removed. *)
Definition minimax_exhaustive : nat -> Z -> ext -> ext -> bool -> ConnectFour -> option outcome :=
  minimax_with false.

(** One of the two scans at the head of [get_ai_move]: try [player]'s
    piece in each column of [moves]; the first column whose placement
    makes [check_winner player] true is returned. *)
Fixpoint immediate_scan (player : Z) (moves : list Z) (g : ConnectFour)
    : option Z * ConnectFour :=
  match moves with
  | [] => (None, g)
  | col :: moves' =>
    let row := get_next_open_row g col in
    let g := set_cell g row col player in
    if check_winner g player then (Some col, set_cell g row col 0)
    else immediate_scan player moves' (set_cell g row col 0)
  end.

(** [get_ai_move(depth)]: the returned column ([None] when [minimax]
    gives none) and the game after the call. *)
Definition get_ai_move (fuel : nat) (depth : Z) (g : ConnectFour)
    : option (option Z * ConnectFour) :=
  match immediate_scan 2 (get_valid_moves g) g with
  | (Some col, g) => Some (Some col, g)
  | (None, g) =>
    match immediate_scan 1 (get_valid_moves g) g with
    | (Some col, g) => Some (Some col, g)
    | (None, g) =>
      '(res, g) ← minimax fuel depth NegInf PosInf true g;
      Some (fst res, g)
    end
  end.

(** The game after [make_move(col, player)]. *)
Definition place (g : ConnectFour) (col player : Z) : ConnectFour :=
  snd (make_move g col player).

(** The game after a sequence of [make_move] calls, each a column and a
    player. *)
Definition play (moves : list (Z * Z)) (g : ConnectFour) : ConnectFour :=
  fold_left (fun g m => place g (fst m) (snd m)) moves g.

(** The number of empty cells of the grid. *)
Definition positions (g : ConnectFour) : list (Z * Z) :=
  r ← range 0 (rows g); c ← range 0 (cols g); [(r, c)].

Definition empties (g : ConnectFour) : nat :=
  length (List.filter (fun rc => cell g (fst rc) (snd rc) =? 0) (positions g)).

(** ** The search as a function of the position

    The search restores the grid before it returns (proved below), so
    its result is a function of the position alone.  The definitions of
    this section give that function; they are what the statements about
    scores are proved on, after [minimax_with] is shown to compute them. *)

(** The grid of the child position: [player]'s piece dropped in [col]. *)
Definition child (g : ConnectFour) (col player : Z) : ConnectFour :=
  set_cell g (get_next_open_row g col) col player.

(** The test [depth == 0 or is_terminal]. *)
Definition is_leaf (depth : Z) (g : ConnectFour) : bool :=
  (depth =? 0) || (check_winner g 1 || check_winner g 2 || is_board_full g).

(** The score returned at a leaf. *)
Definition leaf_score (g : ConnectFour) : ext :=
  if check_winner g 2 then Fin 1000000000
  else if check_winner g 1 then Fin (-1000000000)
  else if is_board_full g then Fin 0
  else Fin (evaluate_board g 2).

(** The maximizing loop on scores: [rec alpha beta col] is the score of
    the child in [col] searched with window [alpha, beta]. *)
Fixpoint max_scan (prune : bool) (rec : ext -> ext -> Z -> ext)
    (moves : list Z) (value : ext) (best_column : Z) (alpha beta : ext)
    : Z * ext :=
  match moves with
  | [] => (best_column, value)
  | col :: moves' =>
    let new_score := rec alpha beta col in
    let '(value, best_column) :=
      if ext_lt value new_score then (new_score, col) else (value, best_column) in
    let alpha := ext_max alpha value in
    if prune && ext_ge alpha beta then (best_column, value)
    else max_scan prune rec moves' value best_column alpha beta
  end.

Fixpoint min_scan (prune : bool) (rec : ext -> ext -> Z -> ext)
    (moves : list Z) (value : ext) (best_column : Z) (alpha beta : ext)
    : Z * ext :=
  match moves with
  | [] => (best_column, value)
  | col :: moves' =>
    let new_score := rec alpha beta col in
    let '(value, best_column) :=
      if ext_lt new_score value then (new_score, col) else (value, best_column) in
    let beta := ext_min beta value in
    if prune && ext_ge alpha beta then (best_column, value)
    else min_scan prune rec moves' value best_column alpha beta
  end.

(** Column and score of [minimax_with] as a function of the position.
    Without fuel the value is arbitrary. *)
Fixpoint search (prune : bool) (fuel : nat) (depth : Z) (alpha beta : ext)
    (maximizing_player : bool) (g : ConnectFour) {struct fuel} : option Z * ext :=
  match fuel with
  | O => (None, Fin 0)
  | S fuel =>
    if is_leaf depth g then (None, leaf_score g)
    else
      let valid_moves := get_valid_moves g in
      let best_column := fallback_column valid_moves in
      if maximizing_player then
        let '(best_column, value) :=
          max_scan prune
            (fun a b col => snd (search prune fuel (depth - 1) a b false (child g col 2)))
            valid_moves NegInf best_column alpha beta in
        (Some best_column, value)
      else
        let '(best_column, value) :=
          min_scan prune
            (fun a b col => snd (search prune fuel (depth - 1) a b true (child g col 1)))
            valid_moves PosInf best_column alpha beta in
        (Some best_column, value)
  end.

(** The largest and the smallest of a list of scores. *)
Definition max_of (l : list ext) : ext := foldr ext_max NegInf l.
Definition min_of (l : list ext) : ext := foldr ext_min PosInf l.

(** The minimax value of a position at a depth: no window, every child
    visited. *)
Fixpoint value_of (fuel : nat) (depth : Z) (maximizing_player : bool)
    (g : ConnectFour) {struct fuel} : ext :=
  match fuel with
  | O => Fin 0
  | S fuel =>
    if is_leaf depth g then leaf_score g
    else if maximizing_player then
      max_of (map (fun col => value_of fuel (depth - 1) false (child g col 2))
                  (get_valid_moves g))
    else
      min_of (map (fun col => value_of fuel (depth - 1) true (child g col 1))
                  (get_valid_moves g))
  end.

(** A score brought into the window [a, b]. *)
Definition clamp (a b x : ext) : ext := ext_max a (ext_min b x).

(** ** What the specification says

    These definitions follow the words of the specification, not the
    code; the theorems compare the code with them. *)

(** The four axes as steps (row step, column step): along a row, down a
    column, and along the two diagonals. *)
Definition directions : list (Z * Z) := [(0, 1); (1, 0); (1, 1); (1, -1)].

(** A cell of the grid. *)
Definition in_grid (g : ConnectFour) (r c : Z) : Prop :=
  0 <= r < rows g /\ 0 <= c < cols g.

(** Four consecutive cells of the grid, along one of the axes, all hold
    [player]. *)
Definition four_in_row (g : ConnectFour) (player : Z) : Prop :=
  exists r c dr dc,
    In (dr, dc) directions /\
    forall i, 0 <= i < 4 ->
      in_grid g (r + i * dr) (c + i * dc) /\
      cell g (r + i * dr) (c + i * dc) = player.

(** Gravity: below an occupied cell every cell of the column is
    occupied (rows are numbered from the top). *)
Definition gravity (g : ConnectFour) : Prop :=
  forall r r' c,
    0 <= r -> r < r' -> r' < rows g -> 0 <= c < cols g ->
    cell g r c <> 0 -> cell g r' c <> 0.

(** The positions of the window of four cells that starts at [(r, c)]
    and runs along [d]. *)
Definition window_cells (r c : Z) (d : Z * Z) : list (Z * Z) :=
  map (fun i => (r + i * fst d, c + i * snd d)) (range 0 4).

Definition in_grid_b (g : ConnectFour) (rc : Z * Z) : bool :=
  (0 <=? fst rc) && (fst rc <? rows g) && (0 <=? snd rc) && (snd rc <? cols g).

(** Every window of four cells of the grid, along every axis: each start
    and direction whose four cells lie in the grid. *)
Definition windows (g : ConnectFour) : list (list (Z * Z)) :=
  d ← directions; r ← range 0 (rows g); c ← range 0 (cols g);
  if forallb (in_grid_b g) (window_cells r c d) then [window_cells r c d] else [].

(** The other of the two players. *)
Definition other_player (player : Z) : Z := if player =? 1 then 2 else 1.

(** The score of a window as the specification lists it. *)
Definition window_score (w : list Z) (player : Z) : Z :=
  if count w player =? 4 then 100
  else if (count w player =? 3) && (count w 0 =? 1) then 5
  else if (count w player =? 2) && (count w 0 =? 2) then 2
  else if (count w (other_player player) =? 3) && (count w 0 =? 1) then -4
  else 0.

Definition sumZ (l : list Z) : Z := foldr Z.add 0 l.

(** Three times the player's pieces in the middle column, plus the
    scores of all windows. *)
Definition evaluate_board_spec (g : ConnectFour) (player : Z) : Z :=
  3 * count (map (fun r => cell g r (cols g / 2)) (range 0 (rows g))) player
  + sumZ (map (fun w => window_score (map (fun rc => cell g (fst rc) (snd rc)) w) player)
              (windows g)).

(** ** Sample positions

    Positions of the standard 6 x 7 game, used where a statement is
    checked on a concrete input. *)

(** PlayerB holds the bottom cells of columns 3, 4 and 5 and two cells
    of column 0; column 6 wins at once. *)
Definition win_board : ConnectFour :=
  play [(3, 2); (4, 2); (5, 2); (2, 1); (0, 2); (0, 2); (1, 1); (1, 1); (2, 1)]
       (init 6 7).

(** PlayerA holds the bottom cells of columns 0, 1 and 2; PlayerB has no
    winning move and must answer in column 3. *)
Definition block_board : ConnectFour :=
  play [(0, 1); (1, 1); (2, 1); (0, 2); (1, 2); (6, 2)] (init 6 7).

(** A full grid on which nobody has four in a row. *)
Definition full_board : ConnectFour :=
  {| rows := 6;
     cols := 7;
     board := [[1; 1; 2; 2; 1; 1; 2];
               [2; 2; 1; 1; 2; 2; 1];
               [1; 1; 2; 2; 1; 1; 2];
               [2; 2; 1; 1; 2; 2; 1];
               [1; 1; 2; 2; 1; 1; 2];
               [2; 2; 1; 1; 2; 2; 1]];
     current_player := 1;
     game_over := false;
     winner := None |}.

(** ** Measures of the evaluation and of the search *)

(** The number of windows of four cells that fit the grid. *)
Definition window_count (g : ConnectFour) : Z :=
  rows g * Z.max 0 (cols g - 3)
  + Z.max 0 (rows g - 3) * cols g
  + Z.max 0 (rows g - 3) * Z.max 0 (cols g - 3)
  + Z.max 0 (rows g - 3) * Z.max 0 (cols g - 3).


(** A depth the search cannot exhaust on this position: negative (the
    test [depth == 0] never fires) or above the number of empty
    cells. *)
Definition plays_out (depth : Z) (g : ConnectFour) : Prop :=
  depth < 0 \/ Z.of_nat (empties g) < depth.

(** One of the three terminal scores. *)
Definition terminal_score (e : ext) : Prop :=
  e = Fin 1000000000 \/ e = Fin 0 \/ e = Fin (-1000000000).

(** ** The game loop

    [play_game] without its printing: the human's typed lines are the
    list [inputs], one per prompt, each read by [int(input(...))] into a
    number or rejected with [ValueError] ([None]). *)

(** [self.game_over = b], [self.winner = w], [self.current_player = p] *)
Definition with_game_over (g : ConnectFour) (b : bool) : ConnectFour :=
  {| rows := rows g; cols := cols g; board := board g;
     current_player := current_player g; game_over := b; winner := winner g |}.

Definition with_winner (g : ConnectFour) (w : option Z) : ConnectFour :=
  {| rows := rows g; cols := cols g; board := board g;
     current_player := current_player g; game_over := game_over g; winner := w |}.

Definition with_current_player (g : ConnectFour) (p : Z) : ConnectFour :=
  {| rows := rows g; cols := cols g; board := board g;
     current_player := p; game_over := game_over g; winner := winner g |}.

(** The end of an iteration: the draw check and the switch of players. *)
Definition end_of_turn (g : ConnectFour) : ConnectFour :=
  let g := if is_board_full g && negb (game_over g) then with_game_over g true else g in
  with_current_player g (3 - current_player g).

(** One iteration on the human's turn.  A line that is no number and a
    column that is no valid move both [continue]: nothing changes. *)
Definition human_turn (input : option Z) (g : ConnectFour) : ConnectFour :=
  match input with
  | None => g
  | Some col =>
    if negb (is_valid_move g col) then g
    else
      let g := snd (make_move g col 1) in
      let g := if check_winner g 1
               then with_winner (with_game_over g true) (Some 1) else g in
      end_of_turn g
  end.

(** Where a run of the loop stands: in a state of the game, stopped by
    the [TypeError] that [make_move(None, 2)] raises, or out of fuel (of
    the model, in [minimax]). *)
Inductive run : Type :=
| State (g : ConnectFour)
| TypeError
| OutOfFuel.

(** One iteration on the automated player's turn: [get_ai_move()] with
    its default depth 4, then [make_move(col, 2)]. *)
Definition ai_turn (fuel : nat) (g : ConnectFour) : run :=
  match get_ai_move fuel 4 g with
  | None => OutOfFuel
  | Some (None, _) => TypeError
  | Some (Some col, g) =>
    let g := snd (make_move g col 2) in
    let g := if check_winner g 2
             then with_winner (with_game_over g true) (Some 2) else g in
    State (end_of_turn g)
  end.

(** At most [n] iterations of [while not self.game_over].  The run also
    stops, in the state it has reached, at a prompt with no input
    left. *)
Fixpoint game_loop (fuel n : nat) (inputs : list (option Z)) (g : ConnectFour) : run :=
  match n with
  | O => State g
  | S n =>
    if game_over g then State g
    else if current_player g =? 1 then
      match inputs with
      | [] => State g
      | input :: inputs => game_loop fuel n inputs (human_turn input g)
      end
    else
      match ai_turn fuel g with
      | State g => game_loop fuel n inputs g
      | stopped => stopped
      end
  end.

(** [main()]: a new 6 x 7 game, then the loop. *)
Definition main (fuel n : nat) (inputs : list (option Z)) : run :=
  game_loop fuel n inputs (init 6 7).

(** The number of cells that hold [player]'s piece. *)
Definition pieces (g : ConnectFour) (player : Z) : nat :=
  length (List.filter (fun rc => cell g (fst rc) (snd rc) =? player) (positions g)).

(** The state of a game in progress or finished, as the loop keeps it:
    the players alternate (PlayerA has as many pieces as PlayerB, one
    more when PlayerB is to move), a game that is not over has no winner
    and an open column, and a game that is over names its winner, or is
    a draw on a full board. *)
Definition game_ok (g : ConnectFour) : Prop :=
  wf g /\
  (current_player g = 1 \/ current_player g = 2) /\
  pieces g 1 = (pieces g 2 + (if (current_player g =? 2)%Z then 1 else 0))%nat /\
  (game_over g = false ->
   check_winner g 1 = false /\ check_winner g 2 = false /\
   is_board_full g = false /\ winner g = None) /\
  (game_over g = true ->
   (winner g = Some 1 /\ check_winner g 1 = true) \/
   (winner g = Some 2 /\ check_winner g 2 = true) \/
   (winner g = None /\ is_board_full g = true /\
    check_winner g 1 = false /\ check_winner g 2 = false)).

(** A position near the end of a game: two cells are empty. *)
Definition late_board : ConnectFour :=
  {| rows := 6;
     cols := 7;
     board := [[1; 1; 2; 0; 1; 0; 2];
               [2; 2; 1; 1; 2; 2; 1];
               [1; 1; 2; 2; 1; 1; 2];
               [2; 2; 1; 1; 2; 2; 1];
               [1; 1; 2; 2; 1; 1; 2];
               [2; 2; 1; 1; 2; 2; 1]];
     current_player := 2;
     game_over := false;
     winner := None |}.

(** ** Proof automation *)

(** Case analysis on every score in sight, then linear arithmetic. *)
Ltac ext_cases :=
  intros;
  repeat match goal with x : ext |- _ => destruct x end;
  unfold clamp, ext_ge, ext_max, ext_min in *;
  cbn [ext_lt negb] in *;
  try discriminate;
  repeat (match goal with
          | H : context [Z.ltb ?a ?b] |- _ => destruct (Z.ltb_spec a b)
          | |- context [Z.ltb ?a ?b] => destruct (Z.ltb_spec a b)
          end;
          cbn [ext_lt negb] in *; try discriminate; try lia);
  repeat match goal with
         | H : Fin _ = Fin _ |- _ => injection H as H
         end;
  try reflexivity; try discriminate; try (f_equal; lia); try lia.

(** * Properties *)

(** ** Numbers and ranges *)

Lemma ext_lt_irrefl a : ext_lt a a = false.
Proof. destruct a; simpl; auto. apply Z.ltb_irrefl. Qed.

Lemma elem_of_range x lo hi : x ∈ range lo hi <-> lo <= x < hi.
Proof. unfold range. rewrite elem_of_seqZ. lia. Qed.

Lemma In_range x lo hi : In x (range lo hi) <-> lo <= x < hi.
Proof. rewrite <- list_elem_of_In. apply elem_of_range. Qed.

Lemma range_nil lo hi : hi <= lo -> range lo hi = [].
Proof. intros. unfold range. apply seqZ_nil. lia. Qed.

Lemma range_cons lo hi : lo < hi -> range lo hi = lo :: range (lo + 1) hi.
Proof.
  intros. unfold range. rewrite seqZ_cons by lia.
  f_equal. f_equal; lia.
Qed.

Lemma range_split lo mid hi :
  lo <= mid <= hi -> range lo hi = range lo mid ++ range mid hi.
Proof.
  intros. unfold range.
  replace (hi - lo) with ((mid - lo) + (hi - mid)) by lia.
  rewrite seqZ_app by lia. do 2 f_equal. lia.
Qed.

Lemma range_0_4 : range 0 4 = [0; 1; 2; 3].
Proof. reflexivity. Qed.

Lemma range_desc_nil start stop : start <= stop -> range_desc start stop = [].
Proof. intros. unfold range_desc. rewrite seqZ_nil by lia. reflexivity. Qed.

Lemma range_desc_cons start stop :
  stop < start -> range_desc start stop = start :: range_desc (start - 1) stop.
Proof.
  intros. unfold range_desc.
  replace (start - stop) with ((start - 1 - stop) + 1) by lia.
  rewrite seqZ_app by lia. rewrite reverse_app.
  change (seqZ (stop + 1 + (start - 1 - stop)) 1)
    with [stop + 1 + (start - 1 - stop)].
  simpl. f_equal. lia.
Qed.

(** The first hit of a downward scan is the largest index that passes. *)
Lemma find_range_desc (p : Z -> bool) (n : nat) (stop : Z) :
  match List.find p (range_desc (stop + Z.of_nat n) stop) with
  | Some x => stop < x <= stop + Z.of_nat n /\ p x = true /\
              forall y, x < y <= stop + Z.of_nat n -> p y = false
  | None => forall y, stop < y <= stop + Z.of_nat n -> p y = false
  end.
Proof.
  induction n as [|n IH].
  - rewrite range_desc_nil by lia. simpl. intros; lia.
  - rewrite range_desc_cons by lia. simpl.
    replace (stop + Z.of_nat (S n) - 1) with (stop + Z.of_nat n) by lia.
    destruct (p (stop + Z.of_nat (S n))) eqn:Hp.
    + split; [lia|]. split; [exact Hp|]. intros; lia.
    + destruct (List.find p (range_desc (stop + Z.of_nat n) stop)) as [x|].
      * destruct IH as (Hx & Hpx & Hy). split; [lia|]. split; [exact Hpx|].
        intros y Hyr.
        destruct (Z.eq_dec y (stop + Z.of_nat (S n))) as [->|]; [exact Hp|].
        apply Hy. lia.
      * intros y Hyr.
        destruct (Z.eq_dec y (stop + Z.of_nat (S n))) as [->|]; [exact Hp|].
        apply IH. lia.
Qed.

Lemma py_index_nonneg len i : 0 <= i -> py_index len i = Z.to_nat i.
Proof.
  intros. unfold py_index.
  destruct (Z.ltb_spec i 0); [lia | reflexivity].
Qed.

(** ** Reading and writing cells *)

Lemma rows_set_cell g r c v : rows (set_cell g r c v) = rows g.
Proof. reflexivity. Qed.

Lemma cols_set_cell g r c v : cols (set_cell g r c v) = cols g.
Proof. reflexivity. Qed.

Lemma length_board_set_cell g r c v :
  length (board (set_cell g r c v)) = length (board g).
Proof. simpl. apply length_insert. Qed.

Lemma wf_set_cell g r c v : wf g -> wf (set_cell g r c v).
Proof.
  intros (Hr & Hc & Hlen & Hall). unfold wf.
  rewrite length_board_set_cell. simpl.
  repeat split; auto.
  set (i := py_index (length (board g)) r).
  destruct (board g !! i) as [row|] eqn:Hrow; simpl.
  - apply Forall_insert; [exact Hall|].
    rewrite length_insert.
    exact (Forall_lookup_1 _ _ _ _ Hall Hrow).
  - rewrite list_insert_ge; [exact Hall|].
    apply lookup_ge_None. exact Hrow.
Qed.

(** A row that the grid has, with the grid's width. *)
Lemma board_row g r :
  wf g -> 0 <= r < rows g ->
  exists row, board g !! Z.to_nat r = Some row /\ length row = Z.to_nat (cols g).
Proof.
  intros (Hr & Hc & Hlen & Hall) Hin.
  destruct (lookup_lt_is_Some_2 (board g) (Z.to_nat r)) as [row Hrow]; [lia|].
  exists row. split; [exact Hrow|].
  exact (Forall_lookup_1 _ _ _ _ Hall Hrow).
Qed.

Lemma cell_set_cell_eq g r c v :
  wf g -> 0 <= r < rows g -> 0 <= c < cols g ->
  cell (set_cell g r c v) r c = v.
Proof.
  intros Hwf Hr Hc. destruct (board_row g r Hwf Hr) as (row & Hrow & Hlen).
  unfold cell. rewrite length_board_set_cell. simpl.
  rewrite !py_index_nonneg by lia. rewrite Hrow. simpl.
  rewrite list_lookup_insert_eq by (apply lookup_lt_Some in Hrow; exact Hrow).
  simpl. rewrite list_lookup_insert_eq by lia. reflexivity.
Qed.

Lemma cell_set_cell_ne g r c v r' c' :
  0 <= r -> 0 <= c -> 0 <= r' -> 0 <= c' -> (r', c') <> (r, c) ->
  cell (set_cell g r c v) r' c' = cell g r' c'.
Proof.
  intros Hr Hc Hr' Hc' Hne.
  unfold cell. rewrite length_board_set_cell. simpl.
  rewrite !py_index_nonneg by lia.
  destruct (Z.eq_dec r' r) as [->|Hrr].
  - assert (c' <> c) by congruence.
    destruct (board g !! Z.to_nat r) as [row|] eqn:Hrow; simpl.
    + rewrite list_lookup_insert_eq by (apply lookup_lt_Some in Hrow; exact Hrow).
      simpl. rewrite list_lookup_insert_ne by lia. reflexivity.
    + rewrite list_insert_ge by (apply lookup_ge_None; exact Hrow).
      rewrite Hrow. reflexivity.
  - rewrite list_lookup_insert_ne by lia. reflexivity.
Qed.

(** Writing a cell twice keeps the last value. *)
Lemma set_cell_set_cell g r c v w :
  set_cell (set_cell g r c v) r c w = set_cell g r c w.
Proof.
  unfold set_cell at 1 3. rewrite length_board_set_cell.
  cbn [rows cols board current_player game_over winner set_cell].
  f_equal.
  set (i := py_index (length (board g)) r).
  destruct (board g !! i) as [row|] eqn:Hrow; simpl.
  - rewrite list_lookup_insert_eq by (apply lookup_lt_Some in Hrow; exact Hrow).
    simpl. rewrite length_insert.
    rewrite list_insert_insert_eq. rewrite list_insert_insert_eq. reflexivity.
  - rewrite (list_insert_ge (board g) i) by (apply lookup_ge_None; exact Hrow).
    rewrite Hrow. reflexivity.
Qed.

(** Writing the value a cell already holds changes nothing. *)
Lemma set_cell_same g r c : set_cell g r c (cell g r c) = g.
Proof.
  destruct g as [nr nc b cp go w]. unfold set_cell, cell. simpl. f_equal.
  set (i := py_index (length b) r).
  destruct (b !! i) as [row|] eqn:Hrow; simpl.
  - apply list_insert_id. rewrite Hrow. f_equal.
    set (j := py_index (length row) c).
    destruct (row !! j) as [x|] eqn:Hx; simpl.
    + symmetry. apply list_insert_id. exact Hx.
    + symmetry. apply list_insert_ge. apply lookup_ge_None. exact Hx.
  - apply list_insert_ge. apply lookup_ge_None. exact Hrow.
Qed.

(** Placing a piece on an empty cell and clearing the cell again gives
    the game back. *)
Lemma set_cell_undo g r c v :
  cell g r c = 0 -> set_cell (set_cell g r c v) r c 0 = g.
Proof.
  intros H. rewrite set_cell_set_cell. rewrite <- H at 1. apply set_cell_same.
Qed.

(** ** Valid moves and the open row of a column *)

Lemma is_valid_move_spec g col :
  is_valid_move g col = true <-> 0 <= col < cols g /\ cell g 0 col = 0.
Proof.
  unfold is_valid_move. rewrite !andb_true_iff.
  rewrite Z.leb_le, Z.ltb_lt, Z.eqb_eq. tauto.
Qed.

Lemma In_get_valid_moves g col :
  In col (get_valid_moves g) <-> is_valid_move g col = true.
Proof.
  unfold get_valid_moves. rewrite filter_In, In_range.
  split; [tauto|]. intros H. split; [|exact H].
  apply is_valid_move_spec in H. lia.
Qed.

(** In a column whose top cell is empty the downward scan stops at the
    lowest empty cell. *)
Lemma get_next_open_row_spec g col :
  0 < rows g -> cell g 0 col = 0 ->
  0 <= get_next_open_row g col < rows g /\
  cell g (get_next_open_row g col) col = 0 /\
  forall r, get_next_open_row g col < r < rows g -> cell g r col <> 0.
Proof.
  intros Hrows Htop. unfold get_next_open_row.
  pose proof (find_range_desc (fun row => cell g row col =? 0)
                (Z.to_nat (rows g)) (-1)) as H.
  replace (-1 + Z.of_nat (Z.to_nat (rows g))) with (rows g - 1) in H by lia.
  destruct (List.find _ _) as [row|].
  - destruct H as (Hin & Hz & Hbelow). apply Z.eqb_eq in Hz.
    split; [lia|]. split; [exact Hz|].
    intros r Hr. apply Z.eqb_neq. apply Hbelow. lia.
  - exfalso. specialize (H 0). rewrite Htop in H. simpl in H.
    assert (true = false) by (apply H; lia). discriminate.
Qed.

Lemma get_next_open_row_valid g col :
  wf g -> is_valid_move g col = true ->
  0 <= get_next_open_row g col < rows g /\ 0 <= col < cols g /\
  cell g (get_next_open_row g col) col = 0.
Proof.
  intros (Hr & _) Hv. apply is_valid_move_spec in Hv. destruct Hv as (Hc & Htop).
  destruct (get_next_open_row_spec g col Hr Htop) as (H1 & H2 & _). auto.
Qed.

(** [make_move] on a valid column writes the lowest empty cell. *)
Lemma make_move_valid g col player :
  0 < rows g -> is_valid_move g col = true ->
  make_move g col player = (true, set_cell g (get_next_open_row g col) col player).
Proof.
  intros Hr Hv. unfold make_move. rewrite Hv. simpl.
  pose proof Hv as Hv'. apply is_valid_move_spec in Hv'. destruct Hv' as (_ & Htop).
  pose proof (get_next_open_row_spec g col Hr Htop) as (Hin & _).
  unfold get_next_open_row in *.
  destruct (List.find _ _) as [row|]; [reflexivity | lia].
Qed.

(** [make_move] on any other column fails and changes nothing. *)
Lemma make_move_invalid g col player :
  is_valid_move g col = false -> make_move g col player = (false, g).
Proof. intros Hv. unfold make_move. rewrite Hv. reflexivity. Qed.

(** The board is full exactly when no move is valid. *)
Lemma is_board_full_valid_moves g :
  is_board_full g = true <-> get_valid_moves g = [].
Proof.
  unfold is_board_full. rewrite forallb_forall. split.
  - intros H. destruct (get_valid_moves g) as [|c l] eqn:E; [reflexivity|].
    assert (Hc : In c (get_valid_moves g)) by (rewrite E; left; reflexivity).
    apply In_get_valid_moves in Hc. apply is_valid_move_spec in Hc.
    destruct Hc as (Hc & Htop).
    specialize (H c). rewrite In_range, Htop in H. simpl in H.
    assert (false = true) by (apply H; lia). discriminate.
  - intros E c Hc. apply In_range in Hc.
    destruct (cell g 0 c =? 0) eqn:Htop; [|reflexivity].
    assert (Hin : In c (get_valid_moves g)).
    { apply In_get_valid_moves, is_valid_move_spec.
      apply Z.eqb_eq in Htop. split; [lia | exact Htop]. }
    rewrite E in Hin. destruct Hin.
Qed.

(** ** Counting empty cells *)

Lemma In_positions g r c :
  In (r, c) (positions g) <-> 0 <= r < rows g /\ 0 <= c < cols g.
Proof.
  unfold positions. rewrite <- list_elem_of_In, list_elem_of_bind. split.
  - intros (r' & Hc & Hr). apply elem_of_range in Hr.
    apply list_elem_of_bind in Hc. destruct Hc as (c' & Heq & Hc).
    apply elem_of_range in Hc. apply list_elem_of_singleton in Heq.
    inversion Heq; subst. lia.
  - intros (Hr & Hc). exists r. split; [|apply elem_of_range; lia].
    apply list_elem_of_bind. exists c. split; [|apply elem_of_range; lia].
    apply list_elem_of_singleton. reflexivity.
Qed.

Lemma filter_length_le {A} (p q : A -> bool) (l : list A) :
  (forall y, In y l -> q y = true -> p y = true) ->
  (length (List.filter q l) <= length (List.filter p l))%nat.
Proof.
  induction l as [|a l IH]; intros Himp; simpl; [lia|].
  assert (IH' : (length (List.filter q l) <= length (List.filter p l))%nat).
  { apply IH. intros y Hy. apply Himp. right. exact Hy. }
  destruct (q a) eqn:Hq.
  - rewrite (Himp a (or_introl eq_refl) Hq). simpl. lia.
  - destruct (p a); simpl; lia.
Qed.

Lemma filter_length_lt {A} (p q : A -> bool) (l : list A) (x : A) :
  In x l -> p x = true -> q x = false ->
  (forall y, In y l -> q y = true -> p y = true) ->
  (length (List.filter q l) < length (List.filter p l))%nat.
Proof.
  induction l as [|a l IH]; intros Hin Hp Hq Himp; simpl; [destruct Hin|].
  assert (Himp' : forall y, In y l -> q y = true -> p y = true).
  { intros y Hy. apply Himp. right. exact Hy. }
  destruct Hin as [->|Hin].
  - rewrite Hp, Hq. simpl.
    pose proof (filter_length_le p q l Himp'). lia.
  - specialize (IH Hin Hp Hq Himp').
    destruct (q a) eqn:Hqa.
    + rewrite (Himp a (or_introl eq_refl) Hqa). simpl. lia.
    + destruct (p a); simpl; lia.
Qed.

(** Filling an empty cell of the grid leaves fewer empty cells. *)
Lemma empties_set_cell_lt g r c v :
  wf g -> 0 <= r < rows g -> 0 <= c < cols g -> cell g r c = 0 -> v <> 0 ->
  (empties (set_cell g r c v) < empties g)%nat.
Proof.
  intros Hwf Hr Hc Hz Hv. unfold empties.
  change (positions (set_cell g r c v)) with (positions g).
  apply (filter_length_lt _ _ _ (r, c)).
  - apply In_positions. auto.
  - simpl. rewrite Hz. reflexivity.
  - simpl. rewrite cell_set_cell_eq by auto. apply Z.eqb_neq. exact Hv.
  - intros [r' c'] Hin. simpl. apply In_positions in Hin.
    destruct (decide ((r', c') = (r, c))) as [Heq|Hne].
    + inversion Heq; subst. rewrite cell_set_cell_eq by auto.
      intros H. apply Z.eqb_eq in H. contradiction.
    + rewrite cell_set_cell_ne by (auto; lia). auto.
Qed.

(** ** The search restores the grid and computes [search] *)

Lemma minimax_with_leaf prune fuel depth alpha beta m g :
  is_leaf depth g = true ->
  minimax_with prune (S fuel) depth alpha beta m g = Some ((None, leaf_score g), g).
Proof.
  intros Hleaf. unfold is_leaf in Hleaf. simpl. rewrite Hleaf.
  unfold leaf_score.
  destruct (check_winner g 2); [reflexivity|].
  destruct (check_winner g 1); [reflexivity|].
  destruct (is_board_full g); reflexivity.
Qed.

Lemma minimax_with_node prune fuel depth alpha beta m g :
  is_leaf depth g = false ->
  minimax_with prune (S fuel) depth alpha beta m g =
  let valid_moves := get_valid_moves g in
  let best_column := fallback_column valid_moves in
  if m then
    '(best_column, value, g) ←
      max_loop prune (fun a b => minimax_with prune fuel (depth - 1) a b false)
        valid_moves NegInf best_column alpha beta g;
    Some ((Some best_column, value), g)
  else
    '(best_column, value, g) ←
      min_loop prune (fun a b => minimax_with prune fuel (depth - 1) a b true)
        valid_moves PosInf best_column alpha beta g;
    Some ((Some best_column, value), g).
Proof.
  intros Hleaf. unfold is_leaf in Hleaf. simpl. rewrite Hleaf. reflexivity.
Qed.

Section Loops.
  Variable prune : bool.
  Variable g : ConnectFour.
  Variable player : Z.
  Variable rec : ext -> ext -> ConnectFour -> option outcome.
  Variable rec_score : ext -> ext -> Z -> ext.
  Variable moves : list Z.

  (** Every column of the loop has its open cell empty, and the
      recursive call on the child gives the child back with the score
      [rec_score]. *)
  Hypothesis open_cell :
    forall col, In col moves -> cell g (get_next_open_row g col) col = 0.
  Hypothesis rec_ok :
    forall col a b, In col moves ->
      exists c, rec a b (child g col player) =
                Some ((c, rec_score a b col), child g col player).

Lemma max_loop_scan value best alpha beta :
  player = 2 ->
  max_loop prune rec moves value best alpha beta g =
  Some (max_scan prune rec_score moves value best alpha beta, g).
Proof.
  intros ->. revert value best alpha open_cell rec_ok.
  induction moves as [|col l IH]; intros value best alpha Hopen Hrec.
  - reflexivity.
  - simpl.
    destruct (Hrec col alpha beta (or_introl eq_refl)) as (c & Hc).
    unfold child in Hc. rewrite Hc. simpl.
    rewrite (set_cell_undo g _ _ 2) by (apply Hopen; left; reflexivity).
    destruct (ext_lt value (rec_score alpha beta col)).
    + destruct (prune && ext_ge (ext_max alpha (rec_score alpha beta col)) beta);
        [reflexivity|].
      apply IH; intros; [apply Hopen | apply Hrec]; right; assumption.
    + destruct (prune && ext_ge (ext_max alpha value) beta); [reflexivity|].
      apply IH; intros; [apply Hopen | apply Hrec]; right; assumption.
Qed.

Lemma min_loop_scan value best alpha beta :
  player = 1 ->
  min_loop prune rec moves value best alpha beta g =
  Some (min_scan prune rec_score moves value best alpha beta, g).
Proof.
  intros ->. revert value best beta open_cell rec_ok.
  induction moves as [|col l IH]; intros value best beta Hopen Hrec.
  - reflexivity.
  - simpl.
    destruct (Hrec col alpha beta (or_introl eq_refl)) as (c & Hc).
    unfold child in Hc. rewrite Hc. simpl.
    rewrite (set_cell_undo g _ _ 1) by (apply Hopen; left; reflexivity).
    destruct (ext_lt (rec_score alpha beta col) value).
    + destruct (prune && ext_ge alpha (ext_min beta (rec_score alpha beta col)));
        [reflexivity|].
      apply IH; intros; [apply Hopen | apply Hrec]; right; assumption.
    + destruct (prune && ext_ge alpha (ext_min beta value)); [reflexivity|].
      apply IH; intros; [apply Hopen | apply Hrec]; right; assumption.
Qed.
End Loops.

Lemma wf_child g col player : wf g -> wf (child g col player).
Proof. apply wf_set_cell. Qed.

Lemma empties_child_lt g col player :
  wf g -> is_valid_move g col = true -> player <> 0 ->
  (empties (child g col player) < empties g)%nat.
Proof.
  intros Hwf Hv Hp.
  destruct (get_next_open_row_valid g col Hwf Hv) as (Hr & Hc & Hz).
  apply empties_set_cell_lt; auto.
Qed.

(** With fuel above the number of empty cells the search returns, leaves
    the grid as it found it, and gives the column and score of [search]. *)
Lemma minimax_with_search prune fuel :
  forall depth alpha beta m g,
    wf g -> (empties g < fuel)%nat ->
    minimax_with prune fuel depth alpha beta m g =
    Some (search prune fuel depth alpha beta m g, g).
Proof.
  induction fuel as [|fuel IH]; intros depth alpha beta m g Hwf Hfuel; [lia|].
  destruct (is_leaf depth g) eqn:Hleaf.
  - rewrite minimax_with_leaf by exact Hleaf. simpl. rewrite Hleaf. reflexivity.
  - rewrite minimax_with_node by exact Hleaf. cbn zeta.
    cbn [search]. rewrite Hleaf. cbn zeta.
    set (best := fallback_column (get_valid_moves g)).
    assert (Hopen : forall col, In col (get_valid_moves g) ->
                      cell g (get_next_open_row g col) col = 0).
    { intros col Hin. apply In_get_valid_moves in Hin.
      apply (get_next_open_row_valid g col Hwf Hin). }
    destruct m.
    + rewrite (max_loop_scan prune g 2 _
                 (fun a b col => snd (search prune fuel (depth - 1) a b false (child g col 2))));
        [ | exact Hopen | | reflexivity].
      * simpl. destruct (max_scan _ _ _ _ _ _ _). reflexivity.
      * intros col a b Hin. apply In_get_valid_moves in Hin.
        rewrite IH.
        -- eexists. rewrite <- surjective_pairing. reflexivity.
        -- apply wf_child. exact Hwf.
        -- pose proof (empties_child_lt g col 2 Hwf Hin). lia.
    + rewrite (min_loop_scan prune g 1 _
                 (fun a b col => snd (search prune fuel (depth - 1) a b true (child g col 1))));
        [ | exact Hopen | | reflexivity].
      * simpl. destruct (min_scan _ _ _ _ _ _ _). reflexivity.
      * intros col a b Hin. apply In_get_valid_moves in Hin.
        rewrite IH.
        -- eexists. rewrite <- surjective_pairing. reflexivity.
        -- apply wf_child. exact Hwf.
        -- pose proof (empties_child_lt g col 1 Hwf Hin). lia.
Qed.

(** More fuel never changes a result that was reached. *)
Lemma max_loop_mono prune rec rec' moves :
  (forall a b g r, rec a b g = Some r -> rec' a b g = Some r) ->
  forall value best alpha beta g r,
    max_loop prune rec moves value best alpha beta g = Some r ->
    max_loop prune rec' moves value best alpha beta g = Some r.
Proof.
  intros Hrec. induction moves as [|col l IH]; intros value best alpha beta g r H;
    [exact H|].
  simpl in *.
  destruct (rec alpha beta _) as [[res g1]|] eqn:E; [|discriminate].
  rewrite (Hrec _ _ _ _ E). simpl in *.
  destruct (ext_lt value (snd res)); destruct (prune && _);
    try exact H; apply IH; exact H.
Qed.

Lemma min_loop_mono prune rec rec' moves :
  (forall a b g r, rec a b g = Some r -> rec' a b g = Some r) ->
  forall value best alpha beta g r,
    min_loop prune rec moves value best alpha beta g = Some r ->
    min_loop prune rec' moves value best alpha beta g = Some r.
Proof.
  intros Hrec. induction moves as [|col l IH]; intros value best alpha beta g r H;
    [exact H|].
  simpl in *.
  destruct (rec alpha beta _) as [[res g1]|] eqn:E; [|discriminate].
  rewrite (Hrec _ _ _ _ E). simpl in *.
  destruct (ext_lt (snd res) value); destruct (prune && _);
    try exact H; apply IH; exact H.
Qed.

Lemma minimax_with_mono prune fuel :
  forall fuel' depth alpha beta m g r,
    (fuel <= fuel')%nat ->
    minimax_with prune fuel depth alpha beta m g = Some r ->
    minimax_with prune fuel' depth alpha beta m g = Some r.
Proof.
  induction fuel as [|fuel IH]; intros fuel' depth alpha beta m g r Hle H;
    [discriminate|].
  destruct fuel' as [|fuel']; [lia|].
  destruct (is_leaf depth g) eqn:Hleaf.
  - rewrite minimax_with_leaf in * by exact Hleaf. exact H.
  - rewrite minimax_with_node in * by exact Hleaf. cbn zeta in *.
    destruct m.
    + destruct (max_loop prune _ _ _ _ _ _ g) as [x|] eqn:E; [|discriminate].
      erewrite max_loop_mono; [exact H | | exact E].
      intros a b g0 r0. apply IH. lia.
    + destruct (min_loop prune _ _ _ _ _ _ g) as [x|] eqn:E; [|discriminate].
      erewrite min_loop_mono; [exact H | | exact E].
      intros a b g0 r0. apply IH. lia.
Qed.

(** Whatever the fuel, a call that returns leaves the grid as it found
    it. *)
Lemma minimax_with_restores prune fuel depth alpha beta m g res g' :
  wf g ->
  minimax_with prune fuel depth alpha beta m g = Some (res, g') -> g' = g.
Proof.
  intros Hwf H.
  apply (minimax_with_mono prune fuel (fuel + S (empties g))) in H; [|lia].
  rewrite minimax_with_search in H by (auto; lia).
  congruence.
Qed.

(** ** The two scans of [get_ai_move] *)

(** A scan over columns whose open cell is empty restores the grid, and
    finds the first column whose child position is won by [player]. *)
Lemma immediate_scan_find player moves g :
  (forall col, In col moves -> cell g (get_next_open_row g col) col = 0) ->
  immediate_scan player moves g =
  (List.find (fun col => check_winner (child g col player) player) moves, g).
Proof.
  induction moves as [|col l IH]; intros Hopen; [reflexivity|].
  simpl.
  rewrite (set_cell_undo g _ _ player) by (apply Hopen; left; reflexivity).
  fold (child g col player).
  destruct (check_winner (child g col player) player); [reflexivity|].
  apply IH. intros c Hc. apply Hopen. right. exact Hc.
Qed.

Lemma open_cell_valid_moves g :
  wf g ->
  forall col, In col (get_valid_moves g) -> cell g (get_next_open_row g col) col = 0.
Proof.
  intros Hwf col Hin. apply In_get_valid_moves in Hin.
  apply (get_next_open_row_valid g col Hwf Hin).
Qed.

(** [get_ai_move] in terms of the two searches for a winning column. *)
Lemma get_ai_move_unfold fuel depth g :
  wf g ->
  get_ai_move fuel depth g =
  match List.find (fun col => check_winner (child g col 2) 2) (get_valid_moves g) with
  | Some col => Some (Some col, g)
  | None =>
    match List.find (fun col => check_winner (child g col 1) 1) (get_valid_moves g) with
    | Some col => Some (Some col, g)
    | None => '(res, g') ← minimax fuel depth NegInf PosInf true g; Some (fst res, g')
    end
  end.
Proof.
  intros Hwf. unfold get_ai_move.
  rewrite immediate_scan_find by (apply open_cell_valid_moves; exact Hwf).
  destruct (List.find _ _) as [col|]; [reflexivity|].
  rewrite immediate_scan_find by (apply open_cell_valid_moves; exact Hwf).
  destruct (List.find _ _) as [col|]; reflexivity.
Qed.

(** C1. On every well-formed grid, for every depth, window and side, a
    call of [minimax] that returns leaves the game object (rows, cols and
    every cell) as it was before the call, and so does a call of
    [get_ai_move], its two scans included; and with fuel above the
    number of empty cells both calls do return. *)
Theorem search_leaves_board_unchanged :
  forall (fuel : nat) (depth : Z) (alpha beta : ext) (maximizing : bool)
         (g : ConnectFour),
    wf g ->
    (forall res g', minimax fuel depth alpha beta maximizing g = Some (res, g') ->
                    g' = g) /\
    (forall col g', get_ai_move fuel depth g = Some (col, g') -> g' = g) /\
    ((empties g < fuel)%nat ->
     (exists res, minimax fuel depth alpha beta maximizing g = Some (res, g)) /\
     (exists col, get_ai_move fuel depth g = Some (col, g))).
Proof.
  intros fuel depth alpha beta m g Hwf. split; [|split].
  - intros res g'. unfold minimax. apply minimax_with_restores. exact Hwf.
  - intros col g'. rewrite get_ai_move_unfold by exact Hwf.
    destruct (List.find _ _) as [c|]; [congruence|].
    destruct (List.find _ _) as [c|]; [congruence|].
    destruct (minimax fuel depth NegInf PosInf true g) as [[res g1]|] eqn:E;
      [|discriminate].
    simpl. intros H. inversion H; subst.
    unfold minimax in E. apply minimax_with_restores in E; assumption.
  - intros Hfuel. split.
    + eexists. unfold minimax. apply minimax_with_search; assumption.
    + rewrite get_ai_move_unfold by exact Hwf.
      destruct (List.find _ _) as [c|]; [eexists; reflexivity|].
      destruct (List.find _ _) as [c|]; [eexists; reflexivity|].
      unfold minimax. rewrite minimax_with_search by assumption.
      simpl. eexists. reflexivity.
Qed.

Lemma wf_init nrows ncols : 0 < nrows -> 0 < ncols -> wf (init nrows ncols).
Proof.
  intros Hr Hc. unfold wf, init. simpl. repeat split; auto.
  - apply length_replicate.
  - apply Forall_replicate. apply length_replicate.
Qed.

Lemma place_valid g col player :
  wf g -> is_valid_move g col = true -> place g col player = child g col player.
Proof.
  intros (Hr & _) Hv. unfold place. rewrite make_move_valid by assumption.
  reflexivity.
Qed.

Lemma place_invalid g col player :
  is_valid_move g col = false -> place g col player = g.
Proof. intros Hv. unfold place. rewrite make_move_invalid by assumption. reflexivity. Qed.

Lemma wf_place g col player : wf g -> wf (place g col player).
Proof.
  intros Hwf. destruct (is_valid_move g col) eqn:Hv.
  - rewrite place_valid by assumption. apply wf_child. exact Hwf.
  - rewrite place_invalid by assumption. exact Hwf.
Qed.

Lemma wf_play moves : forall g, wf g -> wf (play moves g).
Proof.
  induction moves as [|m l IH]; intros g Hwf; [exact Hwf|].
  apply IH. apply wf_place. exact Hwf.
Qed.

(** ** Leaves of the search *)

(** C5. [minimax] at a leaf: when the depth is 0, a player has four in a
    row or the board is full, the call returns at once (one unit of fuel,
    no recursive call), gives no column, leaves the game as it is, and
    its score is 1000000000 if PlayerB has four in a row, else
    -1000000000 if PlayerA has, else 0 if the board is full, else
    [evaluate_board] for PlayerB, whichever side is to move. *)
Theorem minimax_leaf_result :
  forall (fuel : nat) (depth : Z) (alpha beta : ext) (maximizing : bool)
         (g : ConnectFour),
    wf g ->
    depth = 0 \/ check_winner g 2 = true \/ check_winner g 1 = true \/
      is_board_full g = true ->
    minimax (S fuel) depth alpha beta maximizing g =
    Some ((None,
           if check_winner g 2 then Fin 1000000000
           else if check_winner g 1 then Fin (-1000000000)
           else if is_board_full g then Fin 0
           else Fin (evaluate_board g 2)), g).
Proof.
  intros fuel depth alpha beta m g _ H. unfold minimax.
  apply minimax_with_leaf. unfold is_leaf.
  destruct H as [-> | [H | [H | H]]]; rewrite ?H, ?orb_true_r; reflexivity.
Qed.

(** ** A board without valid moves *)

Lemma no_moves_leaf depth g : get_valid_moves g = [] -> is_leaf depth g = true.
Proof.
  intros H. apply is_board_full_valid_moves in H. unfold is_leaf.
  rewrite H, !orb_true_r. reflexivity.
Qed.

(** C9, as the code has it.  On a board without valid moves [minimax]
    stops at the terminal test: it gives no column ([None]) and the
    terminal score (1000000000 or -1000000000 for a win, otherwise 0), for
    every depth, window and side; the guarded [valid_moves[0]] is never
    evaluated.  [get_ai_move] finds nothing to scan and passes on that
    [None].  The game object is unchanged. *)
Theorem search_without_valid_moves :
  forall (fuel : nat) (depth : Z) (alpha beta : ext) (maximizing : bool)
         (g : ConnectFour),
    wf g -> get_valid_moves g = [] ->
    minimax (S fuel) depth alpha beta maximizing g =
      Some ((None,
             if check_winner g 2 then Fin 1000000000
             else if check_winner g 1 then Fin (-1000000000)
             else Fin 0), g) /\
    get_ai_move (S fuel) depth g = Some (None, g).
Proof.
  intros fuel depth alpha beta m g Hwf Hnone.
  assert (Hfull : is_board_full g = true) by (apply is_board_full_valid_moves; exact Hnone).
  assert (Hmm : forall a b mx,
            minimax (S fuel) depth a b mx g =
            Some ((None,
                   if check_winner g 2 then Fin 1000000000
                   else if check_winner g 1 then Fin (-1000000000)
                   else Fin 0), g)).
  { intros a b mx. unfold minimax.
    rewrite minimax_with_leaf by (apply no_moves_leaf; exact Hnone).
    unfold leaf_score. rewrite Hfull. reflexivity. }
  split; [apply Hmm|].
  unfold get_ai_move. rewrite Hnone. cbn [immediate_scan]. rewrite Hnone.
  cbn [immediate_scan]. rewrite Hmm. reflexivity.
Qed.

(** ** Immediate win and immediate block *)

Lemma find_app_skip {A} (p : A -> bool) (l1 l2 : list A) :
  (forall x, In x l1 -> p x = false) -> List.find p (l1 ++ l2) = List.find p l2.
Proof.
  induction l1 as [|a l IH]; intros H; [reflexivity|].
  simpl. rewrite (H a (or_introl eq_refl)).
  apply IH. intros x Hx. apply H. right. exact Hx.
Qed.

Lemma find_all_false {A} (p : A -> bool) (l : list A) :
  (forall x, In x l -> p x = false) -> List.find p l = None.
Proof.
  intros H. rewrite <- (app_nil_r l). rewrite find_app_skip by exact H. reflexivity.
Qed.

Lemma filter_app_list {A} (p : A -> bool) (l1 l2 : list A) :
  List.filter p (l1 ++ l2) = List.filter p l1 ++ List.filter p l2.
Proof.
  induction l1 as [|a l IH]; [reflexivity|].
  simpl. destruct (p a); simpl; rewrite IH; reflexivity.
Qed.

(** The valid moves are scanned in ascending order: the first one that
    passes a test is the lowest valid column that passes it. *)
Lemma find_valid_moves_lowest g (p : Z -> bool) col :
  is_valid_move g col = true -> p col = true ->
  (forall c, c < col -> is_valid_move g c = true -> p c = false) ->
  List.find p (get_valid_moves g) = Some col.
Proof.
  intros Hv Hp Hlow. pose proof Hv as Hv'. apply is_valid_move_spec in Hv'.
  destruct Hv' as (Hc & _). unfold get_valid_moves.
  rewrite (range_split 0 col (cols g)) by lia.
  rewrite (range_cons col (cols g)) by lia.
  rewrite filter_app_list. simpl. rewrite Hv.
  rewrite find_app_skip.
  - simpl. rewrite Hp. reflexivity.
  - intros c Hin. apply filter_In in Hin. destruct Hin as (Hr & Hvc).
    apply In_range in Hr. apply Hlow; [lia | exact Hvc].
Qed.

Lemma find_valid_moves_none g (p : Z -> bool) :
  (forall c, is_valid_move g c = true -> p c = false) ->
  List.find p (get_valid_moves g) = None.
Proof.
  intros H. apply find_all_false. intros c Hin. apply H.
  apply In_get_valid_moves. exact Hin.
Qed.

(** C3. If some valid column, filled with PlayerB's piece, gives PlayerB
    four in a row, [get_ai_move] returns the lowest such column, at
    every depth and with any fuel, none included: [minimax], which
    returns nothing without fuel, is not called.  The game object is
    unchanged. *)
Theorem get_ai_move_immediate_win :
  forall (fuel : nat) (depth : Z) (g : ConnectFour) (col : Z),
    wf g ->
    is_valid_move g col = true ->
    check_winner (place g col 2) 2 = true ->
    (forall c, c < col -> is_valid_move g c = true ->
               check_winner (place g c 2) 2 = false) ->
    get_ai_move fuel depth g = Some (Some col, g).
Proof.
  intros fuel depth g col Hwf Hv Hwin Hlow.
  rewrite get_ai_move_unfold by exact Hwf.
  rewrite (find_valid_moves_lowest g _ col); [reflexivity | exact Hv | |].
  - rewrite <- place_valid by assumption. exact Hwin.
  - intros c Hc Hvc. rewrite <- place_valid by assumption. auto.
Qed.

(** C4. If no valid column gives PlayerB four in a row at once, and some
    valid column, filled with PlayerA's piece, gives PlayerA four in a
    row, [get_ai_move] returns the lowest such column, at every depth
    and with any fuel, none included: [minimax] is not called.  The game
    object is unchanged. *)
Theorem get_ai_move_immediate_block :
  forall (fuel : nat) (depth : Z) (g : ConnectFour) (col : Z),
    wf g ->
    (forall c, is_valid_move g c = true ->
               check_winner (place g c 2) 2 = false) ->
    is_valid_move g col = true ->
    check_winner (place g col 1) 1 = true ->
    (forall c, c < col -> is_valid_move g c = true ->
               check_winner (place g c 1) 1 = false) ->
    get_ai_move fuel depth g = Some (Some col, g).
Proof.
  intros fuel depth g col Hwf Hnowin Hv Hblock Hlow.
  rewrite get_ai_move_unfold by exact Hwf.
  rewrite find_valid_moves_none.
  - rewrite (find_valid_moves_lowest g _ col); [reflexivity | exact Hv | |].
    + rewrite <- place_valid by assumption. exact Hblock.
    + intros c Hc Hvc. rewrite <- place_valid by assumption. auto.
  - intros c Hvc. rewrite <- place_valid by assumption. auto.
Qed.

(** Without fuel [minimax] returns nothing. *)
Lemma minimax_no_fuel depth alpha beta m g :
  minimax 0 depth alpha beta m g = None.
Proof. reflexivity. Qed.

(** ** The column chosen by the search *)

Lemma max_scan_column prune rec moves value best alpha beta :
  fst (max_scan prune rec moves value best alpha beta) = best \/
  In (fst (max_scan prune rec moves value best alpha beta)) moves.
Proof.
  revert value best alpha.
  induction moves as [|col l IH]; intros value best alpha; [left; reflexivity|].
  simpl. destruct (ext_lt value (rec alpha beta col)).
  - destruct (prune && ext_ge _ beta); [right; left; reflexivity|].
    destruct (IH (rec alpha beta col) col (ext_max alpha (rec alpha beta col)))
      as [H|H]; [right; left; symmetry; exact H | right; right; exact H].
  - destruct (prune && ext_ge _ beta); [left; reflexivity|].
    destruct (IH value best (ext_max alpha value)) as [H|H];
      [left; exact H | right; right; exact H].
Qed.

Lemma min_scan_column prune rec moves value best alpha beta :
  fst (min_scan prune rec moves value best alpha beta) = best \/
  In (fst (min_scan prune rec moves value best alpha beta)) moves.
Proof.
  revert value best beta.
  induction moves as [|col l IH]; intros value best beta; [left; reflexivity|].
  simpl. destruct (ext_lt (rec alpha beta col) value).
  - destruct (prune && ext_ge alpha _); [right; left; reflexivity|].
    destruct (IH (rec alpha beta col) col (ext_min beta (rec alpha beta col)))
      as [H|H]; [right; left; symmetry; exact H | right; right; exact H].
  - destruct (prune && ext_ge alpha _); [left; reflexivity|].
    destruct (IH value best (ext_min beta value)) as [H|H];
      [left; exact H | right; right; exact H].
Qed.

Lemma fallback_column_In l : l <> [] -> In (fallback_column l) l.
Proof. destruct l; [congruence|]. intros _. left. reflexivity. Qed.

(** Away from the leaves the search names a valid column. *)
Lemma search_column_valid prune fuel depth alpha beta m g :
  is_leaf depth g = false ->
  exists c, fst (search prune (S fuel) depth alpha beta m g) = Some c /\
            is_valid_move g c = true.
Proof.
  intros Hleaf. cbn [search]. rewrite Hleaf. cbn zeta.
  assert (Hne : get_valid_moves g <> []).
  { intros E. rewrite (no_moves_leaf depth g E) in Hleaf. discriminate. }
  pose proof (fallback_column_In _ Hne) as Hfb.
  destruct m.
  - match goal with |- context [max_scan ?p ?r ?l ?v ?b ?a ?be] =>
      pose proof (max_scan_column p r l v b a be) as H;
      destruct (max_scan p r l v b a be) as [bc v'] end.
    simpl in *. exists bc. split; [reflexivity|].
    apply In_get_valid_moves. destruct H as [->|H]; assumption.
  - match goal with |- context [min_scan ?p ?r ?l ?v ?b ?a ?be] =>
      pose proof (min_scan_column p r l v b a be) as H;
      destruct (min_scan p r l v b a be) as [bc v'] end.
    simpl in *. exists bc. split; [reflexivity|].
    apply In_get_valid_moves. destruct H as [->|H]; assumption.
Qed.

(** C10. On a board where nobody has four in a row and a column is
    open, [get_ai_move] with a depth of at least 1 returns a column, and
    that column is a valid move of the board. *)
Theorem get_ai_move_valid_column :
  forall (fuel : nat) (depth : Z) (g : ConnectFour),
    wf g -> (empties g < fuel)%nat ->
    check_winner g 1 = false -> check_winner g 2 = false ->
    is_board_full g = false ->
    1 <= depth ->
    exists c, get_ai_move fuel depth g = Some (Some c, g) /\
              is_valid_move g c = true.
Proof.
  intros fuel depth g Hwf Hfuel H1 H2 Hfull Hdepth.
  rewrite get_ai_move_unfold by exact Hwf.
  destruct (List.find (fun col => check_winner (child g col 2) 2) (get_valid_moves g))
    as [col|] eqn:Hwin.
  { exists col. split; [reflexivity|].
    apply find_some in Hwin. apply In_get_valid_moves. tauto. }
  destruct (List.find (fun col => check_winner (child g col 1) 1) (get_valid_moves g))
    as [col|] eqn:Hblock.
  { exists col. split; [reflexivity|].
    apply find_some in Hblock. apply In_get_valid_moves. tauto. }
  unfold minimax. rewrite minimax_with_search by assumption.
  destruct fuel as [|fuel]; [lia|].
  assert (Hleaf : is_leaf depth g = false).
  { unfold is_leaf. rewrite H1, H2, Hfull.
    destruct (Z.eqb_spec depth 0); [lia | reflexivity]. }
  destruct (search_column_valid true fuel depth NegInf PosInf true g Hleaf)
    as (c & Hc & Hv).
  exists c. simpl. simpl in Hc. rewrite Hc. auto.
Qed.

(** ** Four in a row *)

Lemma existsb_range2 (P : Z -> Z -> bool) rlo rhi clo chi :
  existsb (fun r => existsb (fun c => P r c) (range clo chi)) (range rlo rhi) = true <->
  exists r c, rlo <= r < rhi /\ clo <= c < chi /\ P r c = true.
Proof.
  rewrite existsb_exists. split.
  - intros (r & Hr & H). apply existsb_exists in H. destruct H as (c & Hc & H).
    apply In_range in Hr, Hc. eauto.
  - intros (r & c & Hr & Hc & H). exists r. split; [apply In_range; exact Hr|].
    apply existsb_exists. exists c. split; [apply In_range; exact Hc | exact H].
Qed.

Lemma all4_spec (f : Z -> bool) :
  all4 f = true <-> forall i, 0 <= i < 4 -> f i = true.
Proof.
  unfold all4. rewrite forallb_forall. split.
  - intros H i Hi. apply H. apply In_range. exact Hi.
  - intros H i Hi. apply H. apply In_range. exact Hi.
Qed.

(** C7. [check_winner(player)] is true exactly when four consecutive
    cells of the grid along a row, a column or one of the two diagonals
    all hold [player]; otherwise it is false. *)
Theorem check_winner_iff_four_in_row :
  forall (g : ConnectFour) (player : Z),
    wf g ->
    (check_winner g player = true <-> four_in_row g player) /\
    (check_winner g player = false <-> ~ four_in_row g player).
Proof.
  intros g player _.
  assert (Hiff : check_winner g player = true <-> four_in_row g player).
  { unfold check_winner, four_in_row, in_grid.
    rewrite !orb_true_iff, !existsb_range2. split.
    - intros [[[H|H]|H]|H]; destruct H as (r & c & Hr & Hc & H);
        rewrite all4_spec in H.
      + exists r, c, 0, 1. split; [simpl; auto|]. intros i Hi.
        specialize (H i Hi). apply Z.eqb_eq in H.
        split; [lia|]. rewrite <- H. f_equal; lia.
      + exists r, c, 1, 0. split; [simpl; auto|]. intros i Hi.
        specialize (H i Hi). apply Z.eqb_eq in H.
        split; [lia|]. rewrite <- H. f_equal; lia.
      + exists r, c, 1, 1. split; [simpl; auto|]. intros i Hi.
        specialize (H i Hi). apply Z.eqb_eq in H.
        split; [lia|]. rewrite <- H. f_equal; lia.
      + exists r, c, 1, (-1). split; [simpl; auto 6|]. intros i Hi.
        specialize (H i Hi). apply Z.eqb_eq in H.
        split; [lia|]. rewrite <- H. f_equal; lia.
    - intros (r & c & dr & dc & Hd & H).
      pose proof (H 0 ltac:(lia)) as (H0 & _).
      pose proof (H 3 ltac:(lia)) as (H3 & _).
      assert (Hcell : forall r' c' i, 0 <= i < 4 ->
                r' = r + i * dr -> c' = c + i * dc ->
                (cell g r' c' =? player) = true).
      { intros r' c' i Hi -> ->. apply Z.eqb_eq. apply H. exact Hi. }
      simpl in Hd.
      destruct Hd as [E|[E|[E|[E|[]]]]]; inversion E; subst dr dc; clear E.
      + left; left; left. exists r, c. split; [lia|]. split; [lia|].
        apply all4_spec. intros i Hi. apply (Hcell _ _ i Hi); lia.
      + left; left; right. exists r, c. split; [lia|]. split; [lia|].
        apply all4_spec. intros i Hi. apply (Hcell _ _ i Hi); lia.
      + left; right. exists r, c. split; [lia|]. split; [lia|].
        apply all4_spec. intros i Hi. apply (Hcell _ _ i Hi); lia.
      + right. exists r, c. split; [lia|]. split; [lia|].
        apply all4_spec. intros i Hi. apply (Hcell _ _ i Hi); lia. }
  split; [exact Hiff|].
  rewrite <- Hiff. destruct (check_winner g player); split; intros; congruence.
Qed.

(** ** Gravity *)

Lemma cell_init nrows ncols r c : cell (init nrows ncols) r c = 0.
Proof.
  unfold cell, init. simpl.
  set (i := py_index _ r).
  destruct (replicate (Z.to_nat nrows) (replicate (Z.to_nat ncols) 0) !! i)
    as [row|] eqn:Hrow; simpl.
  - apply lookup_replicate in Hrow. destruct Hrow as (-> & _).
    set (j := py_index _ c).
    destruct (replicate (Z.to_nat ncols) 0 !! j) as [x|] eqn:Hx; simpl;
      [|reflexivity].
    apply lookup_replicate in Hx. tauto.
  - reflexivity.
Qed.

Lemma gravity_init nrows ncols : gravity (init nrows ncols).
Proof. intros r r' c _ _ _ _ H. rewrite cell_init in H. contradiction. Qed.

(** One [make_move] keeps the invariant, whatever the column and the
    piece. *)
Lemma gravity_place g col player :
  wf g -> gravity g -> gravity (place g col player).
Proof.
  intros Hwf Hg. destruct (is_valid_move g col) eqn:Hv.
  2:{ rewrite place_invalid by exact Hv. exact Hg. }
  rewrite place_valid by assumption. unfold child.
  pose proof Hv as Hv'. apply is_valid_move_spec in Hv'. destruct Hv' as (Hcol & Htop).
  destruct Hwf as (Hrows & Hwf').
  destruct (get_next_open_row_spec g col Hrows Htop) as (Hrow & Hz & Hbelow).
  set (row := get_next_open_row g col) in *.
  intros r r' c Hr Hlt Hr' Hc. rewrite rows_set_cell in Hr'. rewrite cols_set_cell in Hc.
  destruct (Z.eq_dec c col) as [->|Hcne].
  - destruct (Z.eq_dec r' row) as [->|Hr'ne].
    + rewrite (cell_set_cell_ne g row col player r col) by (try lia; intros E; inversion E; lia).
      intros Hocc. exfalso. apply (Hg r row col); auto; lia.
    + rewrite (cell_set_cell_ne g row col player r' col) by (try lia; intros E; inversion E; lia).
      destruct (Z.eq_dec r row) as [->|Hrne].
      * intros _. apply Hbelow. lia.
      * rewrite (cell_set_cell_ne g row col player r col) by (try lia; intros E; inversion E; lia).
        apply Hg; auto; lia.
  - rewrite !(cell_set_cell_ne g row col player _ c) by (try lia; intros E; inversion E; lia).
    apply Hg; auto; lia.
Qed.

(** C8. Every board reached from the empty board by a sequence of
    [make_move] calls (any columns, any pieces) satisfies gravity: in
    each column the occupied cells form a block that rests on the bottom
    row, with no empty cell below an occupied one. *)
Theorem gravity_after_moves :
  forall (nrows ncols : Z) (moves : list (Z * Z)),
    0 < nrows -> 0 < ncols ->
    gravity (play moves (init nrows ncols)).
Proof.
  intros nrows ncols moves Hr Hc.
  assert (H : forall l g, wf g -> gravity g -> gravity (play l g)).
  { induction l as [|m l IH]; intros g Hwf Hg; [exact Hg|].
    simpl. apply IH; [apply wf_place | apply gravity_place]; assumption. }
  apply H; [apply wf_init; assumption | apply gravity_init].
Qed.

(** ** The static evaluator *)

Lemma count_nonneg w x : 0 <= count w x.
Proof. unfold count. lia. Qed.

(** Two different values cannot both occur more often than the list is
    long. *)
Lemma count_two w x y :
  x <> y -> count w x + count w y <= Z.of_nat (length w).
Proof.
  intros Hne. unfold count.
  induction w as [|a w IH]; simpl; [lia|].
  destruct (Z.eq_dec a x), (Z.eq_dec a y); subst; try congruence; lia.
Qed.

(** On a window of four cells the code's score is the specification's. *)
Lemma evaluate_window_score w player :
  length w = 4%nat -> player = 1 \/ player = 2 ->
  evaluate_window w player = window_score w player.
Proof.
  intros Hlen Hp. unfold evaluate_window, window_score.
  assert (Hopp : 3 - player = other_player player).
  { unfold other_player. destruct Hp as [->| ->]; reflexivity. }
  rewrite Hopp.
  assert (Hne : player <> other_player player).
  { unfold other_player. destruct Hp as [->| ->]; simpl; lia. }
  pose proof (count_two w _ _ Hne) as Hsum. rewrite Hlen in Hsum.
  pose proof (count_nonneg w 0).
  destruct (Z.eqb_spec (count w player) 4).
  { destruct (Z.eqb_spec (count w (other_player player)) 3); [lia|]. reflexivity. }
  destruct (Z.eqb_spec (count w player) 3).
  { destruct (Z.eqb_spec (count w (other_player player)) 3); [lia|].
    simpl. destruct (count w 0 =? 1); reflexivity. }
  destruct (Z.eqb_spec (count w player) 2).
  { destruct (Z.eqb_spec (count w (other_player player)) 3); [lia|].
    simpl. destruct (count w 0 =? 2); reflexivity. }
  simpl. destruct (_ && _); reflexivity.
Qed.

Lemma sumZ_app l1 l2 : sumZ (l1 ++ l2) = sumZ l1 + sumZ l2.
Proof. induction l1 as [|a l IH]; simpl; [reflexivity|]. rewrite IH. lia. Qed.

Lemma sumZ_map_ext {A} (f h : A -> Z) (l : list A) :
  (forall x, In x l -> f x = h x) -> sumZ (map f l) = sumZ (map h l).
Proof.
  induction l as [|a l IH]; intros H; simpl; [reflexivity|].
  rewrite (H a (or_introl eq_refl)), IH; [reflexivity|].
  intros x Hx. apply H. right. exact Hx.
Qed.

Lemma sumZ_map_zero {A} (l : list A) : sumZ (map (fun _ => 0) l) = 0.
Proof. induction l as [|a l IH]; simpl; [reflexivity|]. rewrite IH. reflexivity. Qed.

(** A loop that adds [f x] for every [x] adds the sum of the [f x]. *)
Lemma for_loop_add {A} (f : A -> Z) (l : list A) (s : Z) :
  for_loop l (fun x s => s + f x) s = s + sumZ (map f l).
Proof.
  unfold for_loop. revert s.
  induction l as [|a l IH]; intros s; simpl; [lia|]. rewrite IH. lia.
Qed.

Lemma for_loop_ext {A S} (b1 b2 : A -> S -> S) (l : list A) (s : S) :
  (forall x s, b1 x s = b2 x s) -> for_loop l b1 s = for_loop l b2 s.
Proof.
  intros H. unfold for_loop. revert s.
  induction l as [|a l IH]; intros s; simpl; [reflexivity|].
  rewrite H. apply IH.
Qed.

Lemma for_loop_add2 {A B} (f : A -> B -> Z) (l1 : list A) (l2 : list B) (s : Z) :
  for_loop l1 (fun x => for_loop l2 (fun y s => s + f x y)) s =
  s + sumZ (map (fun x => sumZ (map (f x) l2)) l1).
Proof.
  rewrite (for_loop_ext _ (fun x s => s + sumZ (map (f x) l2))).
  - apply for_loop_add.
  - intros x s'. apply for_loop_add.
Qed.

(** The sum over a list built by a bind is the sum of the sums. *)
Lemma sumZ_map_bind {A B} (F : B -> Z) (k : A -> list B) (l : list A) :
  sumZ (map F (l ≫= k)) = sumZ (map (fun x => sumZ (map F (k x))) l).
Proof.
  induction l as [|a l IH]; [reflexivity|].
  change ((a :: l) ≫= k) with (k a ++ (l ≫= k)).
  rewrite map_app, sumZ_app, IH. reflexivity.
Qed.

(** A sum over a range of terms that vanish outside a sub-range. *)
Lemma sumZ_indicator (f : Z -> Z) lo hi lo' hi' :
  lo <= lo' -> hi' <= hi ->
  sumZ (map (fun x => if (lo' <=? x) && (x <? hi') then f x else 0) (range lo hi)) =
  sumZ (map f (range lo' hi')).
Proof.
  intros Hlo Hhi. destruct (Z_lt_le_dec lo' hi') as [Hne|Hempty].
  - rewrite (range_split lo lo' hi) by lia.
    rewrite (range_split lo' hi' hi) by lia.
    rewrite !map_app, !sumZ_app.
    rewrite (sumZ_map_ext _ (fun _ => 0) (range lo lo')).
    2:{ intros x Hx. apply In_range in Hx.
        destruct (Z.leb_spec lo' x); [lia | reflexivity]. }
    rewrite (sumZ_map_ext _ f (range lo' hi')).
    2:{ intros x Hx. apply In_range in Hx.
        destruct (Z.leb_spec lo' x); [|lia].
        destruct (Z.ltb_spec x hi'); [reflexivity | lia]. }
    rewrite (sumZ_map_ext _ (fun _ => 0) (range hi' hi)).
    2:{ intros x Hx. apply In_range in Hx.
        destruct (Z.ltb_spec x hi'); [lia|]. rewrite andb_false_r. reflexivity. }
    rewrite !sumZ_map_zero. lia.
  - rewrite (range_nil lo' hi') by lia. simpl.
    rewrite (sumZ_map_ext _ (fun _ => 0)); [apply sumZ_map_zero|].
    intros x Hx.
    destruct (Z.leb_spec lo' x); [|reflexivity].
    destruct (Z.ltb_spec x hi'); [lia | reflexivity].
Qed.

(** The windows of one axis: the starts whose window fits the grid form
    a rectangle of rows and columns, and the sum over the fitting
    windows is the double sum over that rectangle. *)
Lemma axis_sum g (F : list Z -> Z) (dr dc rlo rhi clo chi : Z) :
  0 <= rlo -> rhi <= rows g -> 0 <= clo -> chi <= cols g ->
  (forall r c, 0 <= r < rows g -> 0 <= c < cols g ->
     forallb (in_grid_b g) (window_cells r c (dr, dc)) =
     ((rlo <=? r) && (r <? rhi)) && ((clo <=? c) && (c <? chi))) ->
  sumZ (map (fun w => F (map (fun rc => cell g (fst rc) (snd rc)) w))
         (r ← range 0 (rows g); c ← range 0 (cols g);
          if forallb (in_grid_b g) (window_cells r c (dr, dc))
          then [window_cells r c (dr, dc)] else [])) =
  sumZ (map (fun r => sumZ (map (fun c =>
          F (map (fun i => cell g (r + i * dr) (c + i * dc)) (range 0 4)))
          (range clo chi))) (range rlo rhi)).
Proof.
  intros Hrlo Hrhi Hclo Hchi Hfit.
  rewrite sumZ_map_bind.
  rewrite <- (sumZ_indicator _ 0 (rows g) rlo rhi) by assumption.
  apply sumZ_map_ext. intros r Hr. apply In_range in Hr.
  rewrite sumZ_map_bind.
  destruct ((rlo <=? r) && (r <? rhi)) eqn:Hrow.
  - rewrite <- (sumZ_indicator _ 0 (cols g) clo chi) by assumption.
    apply sumZ_map_ext. intros c Hc. apply In_range in Hc.
    rewrite Hfit by assumption. rewrite Hrow. cbn [andb].
    destruct ((clo <=? c) && (c <? chi)); [|reflexivity].
    cbn [map sumZ foldr]. rewrite Z.add_0_r.
    unfold window_cells. rewrite map_map. reflexivity.
  - rewrite (sumZ_map_ext _ (fun _ => 0)); [apply sumZ_map_zero|].
    intros c Hc. apply In_range in Hc.
    rewrite Hfit by assumption. rewrite Hrow. reflexivity.
Qed.

Lemma window_fits g r c dr dc rlo rhi clo chi :
  (rlo <= r < rhi /\ clo <= c < chi ->
   forall i, 0 <= i < 4 ->
     0 <= r + i * dr < rows g /\ 0 <= c + i * dc < cols g) ->
  (0 <= r < rows g /\ 0 <= c < cols g ->
   0 <= r + 3 * dr < rows g /\ 0 <= c + 3 * dc < cols g ->
   rlo <= r < rhi /\ clo <= c < chi) ->
  forallb (in_grid_b g) (window_cells r c (dr, dc)) =
  ((rlo <=? r) && (r <? rhi)) && ((clo <=? c) && (c <? chi)).
Proof.
  intros Hin Hout. apply eq_iff_eq_true.
  rewrite forallb_forall, !andb_true_iff, !Z.leb_le, !Z.ltb_lt. split.
  - intros Hall.
    assert (Hcell : forall i, 0 <= i < 4 ->
              0 <= r + i * dr < rows g /\ 0 <= c + i * dc < cols g).
    { intros i Hi.
      assert (Hmem : In (r + i * dr, c + i * dc) (window_cells r c (dr, dc))).
      { unfold window_cells. apply in_map_iff. exists i. split; [reflexivity|].
        apply In_range. exact Hi. }
      apply Hall in Hmem. unfold in_grid_b in Hmem. cbn [fst snd] in Hmem.
      rewrite !andb_true_iff, !Z.leb_le, !Z.ltb_lt in Hmem. lia. }
    pose proof (Hcell 0 ltac:(lia)) as H0. pose proof (Hcell 3 ltac:(lia)) as H3.
    assert (rlo <= r < rhi /\ clo <= c < chi) by (apply Hout; [lia | exact H3]).
    lia.
  - intros Hrect rc Hmem. unfold window_cells in Hmem. apply in_map_iff in Hmem.
    destruct Hmem as (i & <- & Hi). apply In_range in Hi.
    unfold in_grid_b. cbn [fst snd]. rewrite !andb_true_iff, !Z.leb_le, !Z.ltb_lt.
    assert (0 <= r + i * dr < rows g /\ 0 <= c + i * dc < cols g)
      by (apply Hin; [lia | exact Hi]).
    lia.
Qed.

(** The windows of one axis score the same in the code and in the
    specification. *)
Lemma axis_scores g player (dr dc : Z) (cellf : Z -> Z -> Z -> Z)
    (rowl coll : list Z) :
  player = 1 \/ player = 2 ->
  (forall r c i, cellf r c i = cell g (r + i * dr) (c + i * dc)) ->
  sumZ (map (fun r => sumZ (map (fun c =>
     evaluate_window (map (cellf r c) (range 0 4)) player) coll)) rowl) =
  sumZ (map (fun r => sumZ (map (fun c =>
     window_score (map (fun i => cell g (r + i * dr) (c + i * dc)) (range 0 4)) player)
     coll)) rowl).
Proof.
  intros Hp Hcell.
  apply sumZ_map_ext. intros r _. apply sumZ_map_ext. intros c _.
  rewrite evaluate_window_score; [|rewrite length_map; reflexivity | exact Hp].
  f_equal. apply map_ext. intros i. apply Hcell.
Qed.

(** C6. [evaluate_board(player)] is three times the number of
    [player]'s pieces in the middle column plus the sum, over every
    window of four cells of the grid along the four axes, of the window
    score of the specification (100, 5, 2, -4 or 0), and nothing else. *)
Theorem evaluate_board_matches_spec :
  forall (g : ConnectFour) (player : Z),
    wf g -> player = 1 \/ player = 2 ->
    evaluate_board g player = evaluate_board_spec g player.
Proof.
  intros g player (Hr & Hc & _) Hp.
  unfold evaluate_board, evaluate_board_spec. cbn zeta.
  rewrite !for_loop_add2.
  rewrite (axis_scores g player 0 1 (fun r c i => cell g r (c + i)))
    by (auto; intros; f_equal; lia).
  rewrite (axis_scores g player 1 0 (fun r c i => cell g (r + i) c))
    by (auto; intros; f_equal; lia).
  rewrite (axis_scores g player 1 1 (fun r c i => cell g (r + i) (c + i)))
    by (auto; intros; f_equal; lia).
  rewrite (axis_scores g player 1 (-1) (fun r c i => cell g (r + i) (c - i)))
    by (auto; intros; f_equal; lia).
  unfold windows, directions. rewrite sumZ_map_bind. cbn [map sumZ foldr].
  rewrite (axis_sum g (fun w => window_score w player) 0 1 0 (rows g) 0 (cols g - 3));
    [ | lia | lia | lia | lia | intros; apply window_fits; intros; lia].
  rewrite (axis_sum g (fun w => window_score w player) 1 0 0 (rows g - 3) 0 (cols g));
    [ | lia | lia | lia | lia | intros; apply window_fits; intros; lia].
  rewrite (axis_sum g (fun w => window_score w player) 1 1 0 (rows g - 3) 0 (cols g - 3));
    [ | lia | lia | lia | lia | intros; apply window_fits; intros; lia].
  rewrite (axis_sum g (fun w => window_score w player) 1 (-1) 0 (rows g - 3) 3 (cols g));
    [ | lia | lia | lia | lia | intros; apply window_fits; intros; lia].
  lia.
Qed.

(** ** Order facts on scores *)

Lemma ext_max_NegInf_l x : ext_max NegInf x = x.
Proof. ext_cases. Qed.

Lemma ext_max_NegInf_r x : ext_max x NegInf = x.
Proof. ext_cases. Qed.

Lemma ext_min_PosInf_l x : ext_min PosInf x = x.
Proof. ext_cases. Qed.

Lemma ext_min_PosInf_r x : ext_min x PosInf = x.
Proof. ext_cases. Qed.

Lemma ext_max_assoc x y z : ext_max (ext_max x y) z = ext_max x (ext_max y z).
Proof. ext_cases. Qed.

Lemma ext_min_assoc x y z : ext_min (ext_min x y) z = ext_min x (ext_min y z).
Proof. ext_cases. Qed.

Lemma clamp_full x : clamp NegInf PosInf x = x.
Proof. ext_cases. Qed.

Lemma ext_lt_asym x y : ext_lt x y = true -> ext_lt y x = false.
Proof. ext_cases. Qed.

Lemma ext_ge_trans x y z :
  ext_lt x y = false -> ext_lt y z = false -> ext_lt x z = false.
Proof. ext_cases. Qed.

(** Steps of the maximizing loop, on scores: [s] is what the pruned
    search gave for a child, [e] the child's value, [r] what the rest of
    the loop gave and [w] the largest value among the other children. *)

Lemma max_step_done alpha beta value :
  ext_lt alpha value = false -> ext_lt alpha beta = true ->
  clamp alpha beta value = clamp alpha beta NegInf.
Proof. ext_cases. Qed.

Lemma max_step_break alpha beta s e w :
  ext_lt alpha beta = true ->
  clamp alpha beta s = clamp alpha beta e ->
  ext_ge (ext_max alpha s) beta = true ->
  clamp alpha beta s = clamp alpha beta (ext_max e w).
Proof. ext_cases. Qed.

Lemma max_step_better alpha beta s e r w :
  ext_lt alpha beta = true ->
  clamp alpha beta s = clamp alpha beta e ->
  ext_ge (ext_max alpha s) beta = false ->
  clamp (ext_max alpha s) beta r = clamp (ext_max alpha s) beta w ->
  ext_lt r s = false ->
  clamp alpha beta r = clamp alpha beta (ext_max e w).
Proof. ext_cases. Qed.

Lemma max_step_worse alpha beta value s e r w :
  ext_lt alpha value = false -> ext_lt value s = false ->
  ext_lt alpha beta = true ->
  clamp alpha beta s = clamp alpha beta e ->
  clamp alpha beta r = clamp alpha beta w ->
  clamp alpha beta r = clamp alpha beta (ext_max e w).
Proof. ext_cases. Qed.

Lemma ext_max_absorb alpha value : ext_lt alpha value = false -> ext_max alpha value = alpha.
Proof. intros H. unfold ext_max. rewrite H. reflexivity. Qed.

Lemma ext_lt_max_r a s : ext_lt (ext_max a s) s = false.
Proof. ext_cases. Qed.

(** The same steps for the minimizing loop. *)

Lemma min_step_done alpha beta value :
  ext_lt value beta = false -> ext_lt alpha beta = true ->
  clamp alpha beta value = clamp alpha beta PosInf.
Proof. ext_cases. Qed.

Lemma min_step_break alpha beta s e w :
  ext_lt alpha beta = true ->
  clamp alpha beta s = clamp alpha beta e ->
  ext_ge alpha (ext_min beta s) = true ->
  clamp alpha beta s = clamp alpha beta (ext_min e w).
Proof. ext_cases. Qed.

Lemma min_step_better alpha beta s e r w :
  ext_lt alpha beta = true ->
  clamp alpha beta s = clamp alpha beta e ->
  ext_ge alpha (ext_min beta s) = false ->
  clamp alpha (ext_min beta s) r = clamp alpha (ext_min beta s) w ->
  ext_lt s r = false ->
  clamp alpha beta r = clamp alpha beta (ext_min e w).
Proof. ext_cases. Qed.

Lemma min_step_worse alpha beta value s e r w :
  ext_lt value beta = false -> ext_lt s value = false ->
  ext_lt alpha beta = true ->
  clamp alpha beta s = clamp alpha beta e ->
  clamp alpha beta r = clamp alpha beta w ->
  clamp alpha beta r = clamp alpha beta (ext_min e w).
Proof. ext_cases. Qed.

Lemma ext_min_absorb beta value : ext_lt value beta = false -> ext_min beta value = beta.
Proof. intros H. unfold ext_min. rewrite H. reflexivity. Qed.

Lemma ext_lt_min_r b s : ext_lt s (ext_min b s) = false.
Proof. ext_cases. Qed.

(** ** Pruning does not change the score *)

Section MaxScan.
  Variable rec : ext -> ext -> Z -> ext.
  Variable val : Z -> ext.
  Variable beta : ext.

  (** The loop never gives less than the value it starts from. *)
Lemma max_scan_ge prune moves :
  forall value best alpha,
    ext_lt (snd (max_scan prune rec moves value best alpha beta)) value = false.
Proof.
  induction moves as [|col l IH]; intros value best alpha.
  - apply ext_lt_irrefl.
  - simpl. destruct (ext_lt value (rec alpha beta col)) eqn:Hlt.
    + pose proof (ext_lt_asym _ _ Hlt) as Hs.
      destruct (prune && _); [exact Hs|].
      eapply ext_ge_trans; [apply IH | exact Hs].
    + destruct (prune && _); [apply ext_lt_irrefl | apply IH].
Qed.

(** Without pruning, with exact child scores, the loop computes the
    largest child value. *)
Lemma max_scan_exhaustive moves :
  (forall col a b, In col moves -> rec a b col = val col) ->
  forall value best alpha,
    snd (max_scan false rec moves value best alpha beta) =
    ext_max value (max_of (map val moves)).
Proof.
  induction moves as [|col l IH]; intros Hrec value best alpha.
  - simpl. symmetry. apply ext_max_NegInf_r.
  - simpl. rewrite (Hrec col alpha beta (or_introl eq_refl)).
    assert (IH' := IH (fun c a b Hc => Hrec c a b (or_intror Hc))).
    fold (max_of (map val l)).
    rewrite <- ext_max_assoc.
    destruct (ext_lt value (val col)) eqn:Hlt; rewrite IH'.
    + f_equal. unfold ext_max. rewrite Hlt. reflexivity.
    + f_equal. unfold ext_max. rewrite Hlt. reflexivity.
Qed.

(** With pruning, and child scores that are right inside their window,
    the loop is right inside its window. *)
Lemma max_scan_clamp moves :
  (forall col a b, In col moves -> ext_lt a b = true ->
     clamp a b (rec a b col) = clamp a b (val col)) ->
  forall value best alpha,
    ext_lt alpha value = false -> ext_lt alpha beta = true ->
    clamp alpha beta (snd (max_scan true rec moves value best alpha beta)) =
    clamp alpha beta (max_of (map val moves)).
Proof.
  induction moves as [|col l IH]; intros Hrec value best alpha Hva Hab.
  - simpl. apply max_step_done; assumption.
  - assert (IH' := IH (fun c a b Hc => Hrec c a b (or_intror Hc))).
    pose proof (Hrec col alpha beta (or_introl eq_refl) Hab) as Hs.
    simpl. fold (max_of (map val l)).
    set (s := rec alpha beta col) in *.
    destruct (ext_lt value s) eqn:Hlt.
    + destruct (ext_ge (ext_max alpha s) beta) eqn:Hbrk.
      * simpl. apply max_step_break; assumption.
      * simpl.
        apply (max_step_better alpha beta s (val col) _ (max_of (map val l)) Hab Hs Hbrk).
        -- apply IH'; [apply ext_lt_max_r|].
           unfold ext_ge in Hbrk. apply negb_false_iff in Hbrk. exact Hbrk.
        -- apply max_scan_ge.
    + rewrite (ext_max_absorb alpha value Hva).
      unfold ext_ge. rewrite Hab. simpl.
      apply (max_step_worse alpha beta value s (val col) _ (max_of (map val l))
               Hva Hlt Hab Hs).
      apply IH'; assumption.
Qed.
End MaxScan.

Section MinScan.
  Variable rec : ext -> ext -> Z -> ext.
  Variable val : Z -> ext.
  Variable alpha : ext.

Lemma min_scan_le prune moves :
  forall value best beta,
    ext_lt value (snd (min_scan prune rec moves value best alpha beta)) = false.
Proof.
  induction moves as [|col l IH]; intros value best beta.
  - apply ext_lt_irrefl.
  - simpl. destruct (ext_lt (rec alpha beta col) value) eqn:Hlt.
    + pose proof (ext_lt_asym _ _ Hlt) as Hs.
      destruct (prune && _); [exact Hs|].
      eapply ext_ge_trans; [exact Hs | apply IH].
    + destruct (prune && _); [apply ext_lt_irrefl | apply IH].
Qed.

Lemma min_scan_exhaustive moves :
  (forall col a b, In col moves -> rec a b col = val col) ->
  forall value best beta,
    snd (min_scan false rec moves value best alpha beta) =
    ext_min value (min_of (map val moves)).
Proof.
  induction moves as [|col l IH]; intros Hrec value best beta.
  - simpl. symmetry. apply ext_min_PosInf_r.
  - simpl. rewrite (Hrec col alpha beta (or_introl eq_refl)).
    assert (IH' := IH (fun c a b Hc => Hrec c a b (or_intror Hc))).
    fold (min_of (map val l)).
    rewrite <- ext_min_assoc.
    destruct (ext_lt (val col) value) eqn:Hlt; rewrite IH'.
    + f_equal. unfold ext_min. rewrite Hlt. reflexivity.
    + f_equal. unfold ext_min. rewrite Hlt. reflexivity.
Qed.

Lemma min_scan_clamp moves :
  (forall col a b, In col moves -> ext_lt a b = true ->
     clamp a b (rec a b col) = clamp a b (val col)) ->
  forall value best beta,
    ext_lt value beta = false -> ext_lt alpha beta = true ->
    clamp alpha beta (snd (min_scan true rec moves value best alpha beta)) =
    clamp alpha beta (min_of (map val moves)).
Proof.
  induction moves as [|col l IH]; intros Hrec value best beta Hvb Hab.
  - simpl. apply min_step_done; assumption.
  - assert (IH' := IH (fun c a b Hc => Hrec c a b (or_intror Hc))).
    pose proof (Hrec col alpha beta (or_introl eq_refl) Hab) as Hs.
    simpl. fold (min_of (map val l)).
    set (s := rec alpha beta col) in *.
    destruct (ext_lt s value) eqn:Hlt.
    + destruct (ext_ge alpha (ext_min beta s)) eqn:Hbrk.
      * simpl. apply min_step_break; assumption.
      * simpl.
        apply (min_step_better alpha beta s (val col) _ (min_of (map val l)) Hab Hs Hbrk).
        -- apply IH'; [apply ext_lt_min_r|].
           unfold ext_ge in Hbrk. apply negb_false_iff in Hbrk. exact Hbrk.
        -- apply min_scan_le.
    + rewrite (ext_min_absorb beta value Hvb).
      unfold ext_ge. rewrite Hab. simpl.
      apply (min_step_worse alpha beta value s (val col) _ (min_of (map val l))
               Hvb Hlt Hab Hs).
      apply IH'; assumption.
Qed.
End MinScan.

(** The exhaustive search computes the minimax value, whatever window it
    is given. *)
Lemma search_exhaustive_value fuel :
  forall depth alpha beta m g,
    snd (search false fuel depth alpha beta m g) = value_of fuel depth m g.
Proof.
  induction fuel as [|fuel IH]; intros depth alpha beta m g; [reflexivity|].
  cbn [search value_of]. destruct (is_leaf depth g); [reflexivity|].
  cbn zeta. destruct m.
  - match goal with |- context [max_scan ?p ?r ?l ?v ?b ?a ?be] =>
      pose proof (max_scan_exhaustive r
        (fun col => value_of fuel (depth - 1) false (child g col 2)) be l
        (fun col a' b' _ => IH (depth - 1) a' b' false (child g col 2)) v b a) as H;
      destruct (max_scan p r l v b a be) as [bc v'] end.
    simpl in *. rewrite H. apply ext_max_NegInf_l.
  - match goal with |- context [min_scan ?p ?r ?l ?v ?b ?a ?be] =>
      pose proof (min_scan_exhaustive r
        (fun col => value_of fuel (depth - 1) true (child g col 1)) a l
        (fun col a' b' _ => IH (depth - 1) a' b' true (child g col 1)) v b be) as H;
      destruct (min_scan p r l v b a be) as [bc v'] end.
    simpl in *. rewrite H. apply ext_min_PosInf_l.
Qed.

(** The pruned search is right inside its window. *)
Lemma search_pruned_clamp fuel :
  forall depth alpha beta m g,
    ext_lt alpha beta = true ->
    clamp alpha beta (snd (search true fuel depth alpha beta m g)) =
    clamp alpha beta (value_of fuel depth m g).
Proof.
  induction fuel as [|fuel IH]; intros depth alpha beta m g Hab; [reflexivity|].
  cbn [search value_of]. destruct (is_leaf depth g); [reflexivity|].
  cbn zeta. destruct m.
  - match goal with |- context [max_scan ?p ?r ?l ?v ?b ?a ?be] =>
      pose proof (max_scan_clamp r
        (fun col => value_of fuel (depth - 1) false (child g col 2)) be l
        (fun col a' b' _ Hlt => IH (depth - 1) a' b' false (child g col 2) Hlt)
        v b a) as H;
      destruct (max_scan p r l v b a be) as [bc v'] end.
    simpl in *. apply H; [|exact Hab].
    destruct alpha; reflexivity.
  - match goal with |- context [min_scan ?p ?r ?l ?v ?b ?a ?be] =>
      pose proof (min_scan_clamp r
        (fun col => value_of fuel (depth - 1) true (child g col 1)) a l
        (fun col a' b' _ Hlt => IH (depth - 1) a' b' true (child g col 1) Hlt)
        v b be) as H;
      destruct (min_scan p r l v b a be) as [bc v'] end.
    simpl in *. apply H; [|exact Hab].
    destruct beta; reflexivity.
Qed.

(** C2. With the full window, [minimax] and the same recursion without
    the pruning [break] return the same score at the root, at every
    depth, for either side to move, on every well-formed grid. *)
Theorem pruning_preserves_root_score :
  forall (fuel : nat) (depth : Z) (maximizing : bool) (g : ConnectFour),
    wf g -> (empties g < fuel)%nat ->
    exists col col' score,
      minimax fuel depth NegInf PosInf maximizing g = Some ((col, score), g) /\
      minimax_exhaustive fuel depth NegInf PosInf maximizing g =
        Some ((col', score), g).
Proof.
  intros fuel depth m g Hwf Hfuel.
  unfold minimax, minimax_exhaustive.
  rewrite !minimax_with_search by assumption.
  exists (fst (search true fuel depth NegInf PosInf m g)),
         (fst (search false fuel depth NegInf PosInf m g)),
         (value_of fuel depth m g).
  split; f_equal; f_equal.
  - rewrite <- (clamp_full (value_of fuel depth m g)).
    rewrite <- search_pruned_clamp by reflexivity.
    rewrite clamp_full. apply surjective_pairing.
  - rewrite <- search_exhaustive_value with (alpha := NegInf) (beta := PosInf).
    apply surjective_pairing.
Qed.

(** ** The fuel does not matter *)

Lemma max_scan_ext prune rec rec' moves :
  (forall col a b, In col moves -> rec a b col = rec' a b col) ->
  forall value best alpha beta,
    max_scan prune rec moves value best alpha beta =
    max_scan prune rec' moves value best alpha beta.
Proof.
  induction moves as [|col l IH]; intros H value best alpha beta; [reflexivity|].
  simpl. rewrite <- (H col alpha beta (or_introl eq_refl)).
  assert (IH' := IH (fun c a b Hc => H c a b (or_intror Hc))).
  destruct (ext_lt value (rec alpha beta col));
    destruct (prune && _); try reflexivity; apply IH'.
Qed.

Lemma min_scan_ext prune rec rec' moves :
  (forall col a b, In col moves -> rec a b col = rec' a b col) ->
  forall value best alpha beta,
    min_scan prune rec moves value best alpha beta =
    min_scan prune rec' moves value best alpha beta.
Proof.
  induction moves as [|col l IH]; intros H value best alpha beta; [reflexivity|].
  simpl. rewrite <- (H col alpha beta (or_introl eq_refl)).
  assert (IH' := IH (fun c a b Hc => H c a b (or_intror Hc))).
  destruct (ext_lt (rec alpha beta col) value);
    destruct (prune && _); try reflexivity; apply IH'.
Qed.

Lemma search_fuel prune fuel :
  forall fuel' depth alpha beta m g,
    wf g -> (empties g < fuel)%nat -> (empties g < fuel')%nat ->
    search prune fuel depth alpha beta m g = search prune fuel' depth alpha beta m g.
Proof.
  induction fuel as [|fuel IH]; intros fuel' depth alpha beta m g Hwf Hf Hf'; [lia|].
  destruct fuel' as [|fuel']; [lia|].
  cbn [search]. destruct (is_leaf depth g); [reflexivity|]. cbn zeta.
  destruct m.
  - rewrite (max_scan_ext prune _
      (fun a b col => snd (search prune fuel' (depth - 1) a b false (child g col 2))));
      [reflexivity|].
    intros col a b Hin. apply In_get_valid_moves in Hin. f_equal.
    pose proof (empties_child_lt g col 2 Hwf Hin).
    apply IH; [apply wf_child; exact Hwf | lia | lia].
  - rewrite (min_scan_ext prune _
      (fun a b col => snd (search prune fuel' (depth - 1) a b true (child g col 1))));
      [reflexivity|].
    intros col a b Hin. apply In_get_valid_moves in Hin. f_equal.
    pose proof (empties_child_lt g col 1 Hwf Hin).
    apply IH; [apply wf_child; exact Hwf | lia | lia].
Qed.

(** Any two amounts of fuel above the number of empty cells give the
    same result: the bound is only there to make the recursion
    structural. *)
Lemma minimax_with_fuel prune fuel fuel' depth alpha beta m g :
  wf g -> (empties g < fuel)%nat -> (empties g < fuel')%nat ->
  minimax_with prune fuel depth alpha beta m g =
  minimax_with prune fuel' depth alpha beta m g.
Proof.
  intros Hwf Hf Hf'. rewrite !minimax_with_search by assumption.
  rewrite (search_fuel prune fuel fuel') by assumption. reflexivity.
Qed.

(** ** The statements on concrete positions *)

Lemma forallb_range (P : Z -> bool) lo hi :
  forallb P (range lo hi) = true -> forall c, lo <= c < hi -> P c = true.
Proof.
  intros H c Hc. rewrite forallb_forall in H. apply H. apply In_range. exact Hc.
Qed.

Lemma wf_win_board : wf win_board.
Proof. apply wf_play, wf_init; lia. Qed.

Lemma wf_block_board : wf block_board.
Proof. apply wf_play, wf_init; lia. Qed.

Lemma wf_full_board : wf full_board.
Proof.
  unfold wf, full_board. simpl.
  repeat split; try lia. repeat constructor.
Qed.

(** The example of the specification: on the empty 6 x 7 board the first
    move of the automated player, at depth 4, is the centre column. *)
Example opening_move_is_center :
  get_ai_move 43 4 (init 6 7) = Some (Some 3, init 6 7).
Proof. vm_compute. reflexivity. Qed.

(** On [win_board] the search alone would play column 0 (a win that it
    sees three plies ahead, found first), and [get_ai_move] still takes
    the win in column 6. *)
Example immediate_win_overrides_search :
  minimax 43 4 NegInf PosInf true win_board =
    Some ((Some 0, Fin 1000000000), win_board) /\
  get_ai_move 43 4 win_board = Some (Some 6, win_board).
Proof. split; vm_compute; reflexivity. Qed.

Lemma search_leaves_board_unchanged_witness :
  (forall res g', minimax 43 4 NegInf PosInf true block_board = Some (res, g') ->
                  g' = block_board) /\
  (forall col g', get_ai_move 43 4 block_board = Some (col, g') -> g' = block_board) /\
  (exists res, minimax 43 4 NegInf PosInf true block_board = Some (res, block_board)) /\
  (exists col, get_ai_move 43 4 block_board = Some (col, block_board)).
Proof.
  destruct (search_leaves_board_unchanged 43 4 NegInf PosInf true block_board
              wf_block_board) as (Hmm & Hai & Hret).
  split; [exact Hmm|]. split; [exact Hai|].
  apply Hret. vm_compute. lia.
Defined.

Lemma pruning_preserves_root_score_witness :
  exists col col' score,
    minimax 43 3 NegInf PosInf true block_board = Some ((col, score), block_board) /\
    minimax_exhaustive 43 3 NegInf PosInf true block_board =
      Some ((col', score), block_board).
Proof.
  apply (pruning_preserves_root_score 43 3 true block_board).
  - exact wf_block_board.
  - vm_compute. lia.
Defined.

Lemma get_ai_move_immediate_win_witness :
  get_ai_move 0 4 win_board = Some (Some 6, win_board).
Proof.
  apply (get_ai_move_immediate_win 0 4 win_board 6).
  - exact wf_win_board.
  - vm_compute. reflexivity.
  - vm_compute. reflexivity.
  - intros c Hc Hv. apply is_valid_move_spec in Hv. destruct Hv as (Hr & _).
    apply negb_true_iff.
    apply (forallb_range (fun c => negb (check_winner (place win_board c 2) 2)) 0 6);
      [vm_compute; reflexivity | lia].
Defined.

Lemma get_ai_move_immediate_block_witness :
  get_ai_move 0 4 block_board = Some (Some 3, block_board).
Proof.
  apply (get_ai_move_immediate_block 0 4 block_board 3).
  - exact wf_block_board.
  - intros c Hv. apply is_valid_move_spec in Hv. destruct Hv as (Hr & _).
    apply negb_true_iff.
    apply (forallb_range (fun c => negb (check_winner (place block_board c 2) 2)) 0 7);
      [vm_compute; reflexivity | exact Hr].
  - vm_compute. reflexivity.
  - vm_compute. reflexivity.
  - intros c Hc Hv. apply is_valid_move_spec in Hv. destruct Hv as (Hr & _).
    apply negb_true_iff.
    apply (forallb_range (fun c => negb (check_winner (place block_board c 1) 1)) 0 3);
      [vm_compute; reflexivity | lia].
Defined.

Lemma minimax_leaf_result_witness :
  minimax 1 0 NegInf PosInf false win_board = Some ((None, Fin 10), win_board).
Proof.
  apply (minimax_leaf_result 0 0 NegInf PosInf false win_board).
  - exact wf_win_board.
  - left. reflexivity.
Defined.

Lemma evaluate_board_matches_spec_witness :
  evaluate_board win_board 2 = evaluate_board_spec win_board 2.
Proof.
  apply (evaluate_board_matches_spec win_board 2).
  - exact wf_win_board.
  - right. reflexivity.
Defined.

Lemma check_winner_iff_four_in_row_witness :
  (check_winner (place win_board 6 2) 2 = true <-> four_in_row (place win_board 6 2) 2) /\
  (check_winner (place win_board 6 2) 2 = false <-> ~ four_in_row (place win_board 6 2) 2).
Proof.
  apply (check_winner_iff_four_in_row (place win_board 6 2) 2).
  apply wf_place. exact wf_win_board.
Defined.

Lemma gravity_after_moves_witness :
  gravity (play [(3, 1); (3, 2); (4, 1); (3, 2); (9, 1); (0, 2)] (init 6 7)).
Proof.
  apply (gravity_after_moves 6 7 [(3, 1); (3, 2); (4, 1); (3, 2); (9, 1); (0, 2)]); lia.
Defined.

(** C9 as the specification states it fails on [full_board]: no move is
    valid, the fallback column would be 0, and [minimax] and
    [get_ai_move] give no column at all. *)
Lemma no_fallback_column_on_full_board :
  get_valid_moves full_board = [] /\
  fallback_column (get_valid_moves full_board) = 0 /\
  minimax 1 4 NegInf PosInf true full_board = Some ((None, Fin 0), full_board) /\
  get_ai_move 1 4 full_board = Some (None, full_board) /\
  ~ (exists score,
       minimax 1 4 NegInf PosInf true full_board =
       Some ((Some (fallback_column (get_valid_moves full_board)), score), full_board)).
Proof.
  assert (H : minimax 1 4 NegInf PosInf true full_board = Some ((None, Fin 0), full_board))
    by (vm_compute; reflexivity).
  repeat split; try (vm_compute; reflexivity).
  intros (score & Hs). rewrite H in Hs. discriminate.
Qed.

Lemma search_without_valid_moves_witness :
  minimax 1 4 NegInf PosInf true full_board = Some ((None, Fin 0), full_board) /\
  get_ai_move 1 4 full_board = Some (None, full_board).
Proof.
  apply (search_without_valid_moves 0 4 NegInf PosInf true full_board).
  - exact wf_full_board.
  - vm_compute. reflexivity.
Defined.

Lemma get_ai_move_valid_column_witness :
  exists c, get_ai_move 43 4 (init 6 7) = Some (Some c, init 6 7) /\
            is_valid_move (init 6 7) c = true.
Proof.
  apply (get_ai_move_valid_column 43 4 (init 6 7)).
  - apply wf_init; lia.
  - vm_compute. lia.
  - vm_compute. reflexivity.
  - vm_compute. reflexivity.
  - vm_compute. reflexivity.
  - lia.
Defined.

(** * Further properties of the board *)

(** ** What [make_move] does *)

(** X1. [make_move] succeeds exactly on a valid column.  A failed call
    leaves the game as it is.  A successful call keeps the size of the
    grid and writes [player] into one cell, the lowest empty cell of the
    column, and no other cell changes. *)
Theorem make_move_effect :
  forall (g : ConnectFour) (col player : Z),
    wf g ->
    fst (make_move g col player) = is_valid_move g col /\
    wf (snd (make_move g col player)) /\
    rows (snd (make_move g col player)) = rows g /\
    cols (snd (make_move g col player)) = cols g /\
    (is_valid_move g col = false -> snd (make_move g col player) = g) /\
    (is_valid_move g col = true ->
     exists row,
       0 <= row < rows g /\
       cell g row col = 0 /\
       (forall r, row < r < rows g -> cell g r col <> 0) /\
       cell (snd (make_move g col player)) row col = player /\
       forall r c, in_grid g r c -> (r, c) <> (row, col) ->
                   cell (snd (make_move g col player)) r c = cell g r c).
Proof.
  intros g col player Hwf.
  destruct (is_valid_move g col) eqn:Hv.
  - pose proof Hwf as (Hrows & _).
    rewrite make_move_valid by assumption. cbn [fst snd].
    pose proof Hv as Hv'. apply is_valid_move_spec in Hv'. destruct Hv' as (Hc & Htop).
    destruct (get_next_open_row_spec g col Hrows Htop) as (Hrow & Hz & Hbelow).
    split; [reflexivity|]. split; [apply wf_set_cell; exact Hwf|].
    split; [reflexivity|]. split; [reflexivity|]. split; [intros E; discriminate E|].
    intros _. exists (get_next_open_row g col).
    split; [exact Hrow|]. split; [exact Hz|]. split; [exact Hbelow|].
    split; [apply cell_set_cell_eq; assumption|].
    intros r c (Hr & Hcc) Hne. apply cell_set_cell_ne; try lia. exact Hne.
  - rewrite make_move_invalid by assumption. cbn [fst snd].
    split; [reflexivity|]. split; [exact Hwf|]. split; [reflexivity|].
    split; [reflexivity|]. split; [reflexivity|]. intros E; discriminate E.
Qed.

(** ** The list of valid moves *)

Lemma StronglySorted_range lo hi : StronglySorted Z.lt (range lo hi).
Proof.
  remember (Z.to_nat (hi - lo)) as n eqn:Hn. revert lo Hn.
  induction n as [|n IH]; intros lo Hn.
  - rewrite range_nil by lia. constructor.
  - rewrite range_cons by lia. constructor.
    + apply IH. lia.
    + apply Forall_forall. intros x Hx.
      apply list_elem_of_In, In_range in Hx. lia.
Qed.

Lemma StronglySorted_list_filter {A} (R : A -> A -> Prop) (p : A -> bool) l :
  StronglySorted R l -> StronglySorted R (List.filter p l).
Proof.
  induction 1 as [|a l Hl IH Hall]; simpl; [constructor|].
  destruct (p a); [|exact IH].
  constructor; [exact IH|].
  rewrite List.Forall_forall in *. intros x Hx. apply filter_In in Hx.
  apply Hall. tauto.
Qed.

(** X2. [get_valid_moves] lists exactly the valid columns, each once,
    in strictly ascending order. *)
Theorem get_valid_moves_ascending :
  forall (g : ConnectFour),
    wf g ->
    StronglySorted Z.lt (get_valid_moves g) /\
    forall col, In col (get_valid_moves g) <-> is_valid_move g col = true.
Proof.
  intros g _. split.
  - unfold get_valid_moves. apply StronglySorted_list_filter, StronglySorted_range.
  - intros col. apply In_get_valid_moves.
Qed.

(** X3. [is_board_full] is true exactly when [get_valid_moves] is
    empty. *)
Theorem board_full_iff_no_valid_moves :
  forall (g : ConnectFour),
    wf g -> (is_board_full g = true <-> get_valid_moves g = []).
Proof. intros g _. apply is_board_full_valid_moves. Qed.

(** ** The open row of a column *)

(** X4. In a column of the grid, [get_next_open_row] returns [-1]
    exactly when the column has no empty cell; otherwise it returns the
    row of the lowest empty cell (the largest such row index). *)
Theorem get_next_open_row_result :
  forall (g : ConnectFour) (col : Z),
    wf g -> 0 <= col < cols g ->
    (get_next_open_row g col = -1 <->
     forall r, 0 <= r < rows g -> cell g r col <> 0) /\
    (get_next_open_row g col <> -1 ->
     0 <= get_next_open_row g col < rows g /\
     cell g (get_next_open_row g col) col = 0 /\
     forall r, get_next_open_row g col < r < rows g -> cell g r col <> 0).
Proof.
  intros g col (Hrows & _) _. unfold get_next_open_row.
  pose proof (find_range_desc (fun row => cell g row col =? 0)
                (Z.to_nat (rows g)) (-1)) as H.
  replace (-1 + Z.of_nat (Z.to_nat (rows g))) with (rows g - 1) in H by lia.
  destruct (List.find _ _) as [row|].
  - destruct H as (Hin & Hz & Hbelow). apply Z.eqb_eq in Hz. split.
    + split; [lia|]. intros Hfull. exfalso. apply (Hfull row); [lia | exact Hz].
    + intros _. split; [lia|]. split; [exact Hz|].
      intros r Hr. apply Z.eqb_neq. apply Hbelow. lia.
  - split; [|congruence]. split; [|reflexivity].
    intros _ r Hr. apply Z.eqb_neq. apply H. lia.
Qed.

(** ** Counting pieces *)

Lemma NoDup_positions g : NoDup (positions g).
Proof.
  unfold positions. apply NoDup_bind.
  - intros r1 r2 [r c] _ _ H1 H2.
    apply list_elem_of_bind in H1, H2.
    destruct H1 as (c1 & H1 & _), H2 as (c2 & H2 & _).
    apply list_elem_of_singleton in H1, H2. congruence.
  - intros r _. apply NoDup_bind.
    + intros c1 c2 [r' c] _ _ H1 H2.
      apply list_elem_of_singleton in H1, H2. congruence.
    + intros c _. apply NoDup_singleton.
    + apply NoDup_seqZ.
  - apply NoDup_seqZ.
Qed.

Lemma filter_length_same {A} (p q : A -> bool) (l : list A) :
  (forall y, In y l -> q y = p y) ->
  length (List.filter p l) = length (List.filter q l).
Proof.
  induction l as [|a l IH]; intros H; simpl; [reflexivity|].
  rewrite (H a (or_introl eq_refl)).
  destruct (p a); simpl; rewrite IH; auto; intros y Hy; apply H; right; exact Hy.
Qed.

Lemma filter_length_remove {A} (p q : A -> bool) (l : list A) (x : A) :
  NoDup l -> In x l -> p x = true -> q x = false ->
  (forall y, In y l -> y <> x -> q y = p y) ->
  length (List.filter p l) = S (length (List.filter q l)).
Proof.
  induction 1 as [|a l Hnotin Hnd IH]; intros Hin Hp Hq Hsame; [destruct Hin|].
  simpl. destruct Hin as [->|Hin].
  - rewrite Hp, Hq. simpl. f_equal. apply filter_length_same.
    intros y Hy. apply Hsame; [right; exact Hy|].
    intros ->. apply Hnotin. apply list_elem_of_In. exact Hy.
  - assert (Hne : a <> x).
    { intros ->. apply Hnotin. apply list_elem_of_In. exact Hin. }
    rewrite (Hsame a (or_introl eq_refl) Hne).
    assert (IH' : length (List.filter p l) = S (length (List.filter q l))).
    { apply IH; auto. intros y Hy. apply Hsame. right. exact Hy. }
    destruct (p a); simpl; rewrite IH'; reflexivity.
Qed.

(** Filling an empty cell of the grid removes exactly one empty cell. *)
Lemma empties_set_cell g r c v :
  wf g -> 0 <= r < rows g -> 0 <= c < cols g -> cell g r c = 0 -> v <> 0 ->
  empties g = S (empties (set_cell g r c v)).
Proof.
  intros Hwf Hr Hc Hz Hv. unfold empties.
  change (positions (set_cell g r c v)) with (positions g).
  apply (filter_length_remove _ _ _ (r, c)).
  - apply NoDup_positions.
  - apply In_positions. auto.
  - simpl. rewrite Hz. reflexivity.
  - simpl. rewrite cell_set_cell_eq by auto. apply Z.eqb_neq. exact Hv.
  - intros [r' c'] Hin Hne. simpl. apply In_positions in Hin.
    rewrite cell_set_cell_ne by (auto; lia). reflexivity.
Qed.

Lemma length_range lo hi : length (range lo hi) = Z.to_nat (hi - lo).
Proof. unfold range. apply length_seqZ. Qed.

Lemma length_positions g :
  length (positions g) = (Z.to_nat (rows g) * Z.to_nat (cols g))%nat.
Proof.
  unfold positions.
  assert (H : forall (l : list Z),
            length (l ≫= fun r => range 0 (cols g) ≫= fun c => [(r, c)]) =
            (length l * Z.to_nat (cols g))%nat).
  { induction l as [|a l IH]; [reflexivity|].
    change ((a :: l) ≫= ?k) with (k a ++ (l ≫= k)).
    rewrite length_app, IH. simpl. f_equal.
    assert (Hin : forall (l' : list Z),
              length (l' ≫= fun c => [(a, c)]) = length l').
    { induction l' as [|b l' IH']; [reflexivity|].
      change ((b :: l') ≫= ?k) with (k b ++ (l' ≫= k)).
      rewrite length_app, IH'. reflexivity. }
    rewrite Hin, length_range. f_equal. lia. }
  rewrite H, length_range. f_equal. f_equal. lia.
Qed.

Lemma empties_init nrows ncols :
  empties (init nrows ncols) = (Z.to_nat nrows * Z.to_nat ncols)%nat.
Proof.
  transitivity (length (positions (init nrows ncols)));
    [|apply (length_positions (init nrows ncols))].
  unfold empties. f_equal. apply forallb_filter_id. apply forallb_forall.
  intros [r c] _. simpl. rewrite cell_init. reflexivity.
Qed.

(** X5. A successful [make_move] with a piece other than 0 fills
    exactly one of the empty cells of the grid, and a rejected one
    none. *)
Theorem make_move_fills_one_cell :
  forall (g : ConnectFour) (col player : Z),
    wf g -> player <> 0 ->
    (fst (make_move g col player) = true ->
     empties g = S (empties (snd (make_move g col player)))) /\
    (fst (make_move g col player) = false ->
     empties (snd (make_move g col player)) = empties g).
Proof.
  intros g col player Hwf Hp. split.
  - destruct (is_valid_move g col) eqn:Hv.
    + pose proof Hwf as (Hrows & _).
      rewrite make_move_valid by assumption. cbn [fst snd]. intros _.
      destruct (get_next_open_row_valid g col Hwf Hv) as (Hr & Hc & Hz).
      apply empties_set_cell; assumption.
    + rewrite make_move_invalid by assumption. discriminate.
  - destruct (is_valid_move g col) eqn:Hv.
    + pose proof Hwf as (Hrows & _).
      rewrite make_move_valid by assumption. discriminate.
    + rewrite make_move_invalid by assumption. reflexivity.
Qed.

(** ** Wins are kept *)

(** If every cell of the grid that holds [player] in [g] holds it in
    [g'], a win of [player] in [g] is a win in [g']. *)
Lemma check_winner_mono g g' player :
  rows g' = rows g -> cols g' = cols g ->
  (forall r c, 0 <= r < rows g -> 0 <= c < cols g ->
     cell g r c = player -> cell g' r c = player) ->
  check_winner g player = true -> check_winner g' player = true.
Proof.
  intros Hr Hc Hcell. unfold check_winner. rewrite Hr, Hc.
  rewrite !orb_true_iff, !existsb_range2.
  assert (Hstep : forall (fr fc : Z -> Z -> Z -> Z) r c,
            (forall i, 0 <= i < 4 ->
               0 <= fr r c i < rows g /\ 0 <= fc r c i < cols g) ->
            all4 (fun i => cell g (fr r c i) (fc r c i) =? player) = true ->
            all4 (fun i => cell g' (fr r c i) (fc r c i) =? player) = true).
  { intros fr fc r c Hin H. rewrite all4_spec in *. intros i Hi.
    specialize (H i Hi). apply Z.eqb_eq in H. apply Z.eqb_eq.
    destruct (Hin i Hi). apply Hcell; assumption. }
  intros [[[H|H]|H]|H]; destruct H as (r & c & Hrr & Hcc & H).
  - left; left; left. exists r, c. split; [lia|]. split; [lia|].
    apply (Hstep (fun r c i => r) (fun r c i => c + i)); [intros; lia | exact H].
  - left; left; right. exists r, c. split; [lia|]. split; [lia|].
    apply (Hstep (fun r c i => r + i) (fun r c i => c)); [intros; lia | exact H].
  - left; right. exists r, c. split; [lia|]. split; [lia|].
    apply (Hstep (fun r c i => r + i) (fun r c i => c + i)); [intros; lia | exact H].
  - right. exists r, c. split; [lia|]. split; [lia|].
    apply (Hstep (fun r c i => r + i) (fun r c i => c - i)); [intros; lia | exact H].
Qed.

Lemma check_winner_place_mono g col piece player :
  wf g -> player <> 0 ->
  check_winner g player = true -> check_winner (place g col piece) player = true.
Proof.
  intros Hwf Hp. destruct (is_valid_move g col) eqn:Hv.
  2:{ rewrite place_invalid by exact Hv. auto. }
  rewrite place_valid by assumption. unfold child.
  destruct (get_next_open_row_valid g col Hwf Hv) as (Hr & Hc & Hz).
  apply check_winner_mono; try reflexivity.
  intros r c Hrr Hcc Hcell.
  rewrite cell_set_cell_ne; [exact Hcell | lia | lia | lia | lia |].
  intros E. inversion E; subst. congruence.
Qed.

(** X6. A win is never undone: once [check_winner] is true for a player
    it stays true after any further sequence of [make_move] calls. *)
Theorem win_survives_moves :
  forall (g : ConnectFour) (player : Z) (moves : list (Z * Z)),
    wf g -> player <> 0 ->
    check_winner g player = true ->
    check_winner (play moves g) player = true.
Proof.
  intros g player moves Hwf Hp. revert g Hwf.
  induction moves as [|m l IH]; intros g Hwf Hwin; [exact Hwin|].
  simpl. apply IH; [apply wf_place; exact Hwf|].
  apply check_winner_place_mono; assumption.
Qed.

(** ** A new game *)

(** X7. On the grid that [__init__] builds, all [rows * cols] cells are
    empty, every column is a valid move, in order, neither player has
    four in a row and the board is not full. *)
Theorem new_game_is_open :
  forall (nrows ncols player : Z),
    0 < nrows -> 0 < ncols -> player <> 0 ->
    empties (init nrows ncols) = (Z.to_nat nrows * Z.to_nat ncols)%nat /\
    get_valid_moves (init nrows ncols) = range 0 ncols /\
    check_winner (init nrows ncols) player = false /\
    is_board_full (init nrows ncols) = false.
Proof.
  intros nrows ncols player Hr Hc Hp.
  assert (Hmoves : get_valid_moves (init nrows ncols) = range 0 ncols).
  { unfold get_valid_moves. apply forallb_filter_id. apply forallb_forall.
    intros c Hin. apply In_range in Hin. apply is_valid_move_spec.
    split; [exact Hin | apply cell_init]. }
  split; [apply empties_init|]. split; [exact Hmoves|]. split.
  - destruct (check_winner (init nrows ncols) player) eqn:E; [|reflexivity].
    exfalso. unfold check_winner in E.
    rewrite !orb_true_iff, !existsb_range2 in E.
    destruct E as [[[H|H]|H]|H]; destruct H as (r & c & _ & _ & H);
      rewrite all4_spec in H; specialize (H 0 ltac:(lia));
      rewrite cell_init in H; apply Z.eqb_eq in H; congruence.
  - destruct (is_board_full (init nrows ncols)) eqn:E; [|reflexivity].
    apply is_board_full_valid_moves in E. rewrite Hmoves in E.
    rewrite range_cons in E by lia. discriminate.
Qed.

(** * Further properties of the evaluation and the search *)

(** ** The size of the heuristic *)

Lemma evaluate_window_range w player : -4 <= evaluate_window w player <= 100.
Proof.
  unfold evaluate_window.
  destruct (count w player =? 4);
    [|destruct ((count w player =? 3) && (count w 0 =? 1));
      [|destruct ((count w player =? 2) && (count w 0 =? 2))]];
    destruct ((count w (3 - player) =? 3) && (count w 0 =? 1)); lia.
Qed.

Lemma sumZ_bounds {A} (f : A -> Z) (l : list A) lo hi :
  (forall x, In x l -> lo <= f x <= hi) ->
  lo * Z.of_nat (length l) <= sumZ (map f l) <= hi * Z.of_nat (length l).
Proof.
  induction l as [|a l IH]; intros H; simpl length; simpl map; simpl sumZ; [lia|].
  rewrite Nat2Z.inj_succ, !Z.mul_succ_r.
  pose proof (H a (or_introl eq_refl)).
  assert (lo * Z.of_nat (length l) <= sumZ (map f l) <= hi * Z.of_nat (length l))
    by (apply IH; intros x Hx; apply H; right; exact Hx).
  lia.
Qed.

Lemma sumZ_bounds2 {A B} (f : A -> B -> Z) (l1 : list A) (l2 : list B) lo hi :
  (forall x y, lo <= f x y <= hi) ->
  lo * (Z.of_nat (length l1) * Z.of_nat (length l2)) <=
  sumZ (map (fun x => sumZ (map (f x) l2)) l1) <=
  hi * (Z.of_nat (length l1) * Z.of_nat (length l2)).
Proof.
  intros H.
  pose proof (sumZ_bounds (fun x => sumZ (map (f x) l2)) l1
                (lo * Z.of_nat (length l2)) (hi * Z.of_nat (length l2))) as Hb.
  assert (Hin : forall x, In x l1 ->
            lo * Z.of_nat (length l2) <= sumZ (map (f x) l2) <= hi * Z.of_nat (length l2)).
  { intros x _. apply sumZ_bounds. intros y _. apply H. }
  specialize (Hb Hin).
  replace (lo * (Z.of_nat (length l1) * Z.of_nat (length l2)))
    with (lo * Z.of_nat (length l2) * Z.of_nat (length l1)) by ring.
  replace (hi * (Z.of_nat (length l1) * Z.of_nat (length l2)))
    with (hi * Z.of_nat (length l2) * Z.of_nat (length l1)) by ring.
  exact Hb.
Qed.

Lemma length_range_Z lo hi : Z.of_nat (length (range lo hi)) = Z.max 0 (hi - lo).
Proof. rewrite length_range. lia. Qed.

Lemma count_le_length w x : 0 <= count w x <= Z.of_nat (length w).
Proof. unfold count. pose proof (count_occ_bound Z.eq_dec x w). lia. Qed.

Lemma axis_range player (cellf : Z -> Z -> Z -> Z) (rl cl : list Z) :
  -4 * (Z.of_nat (length rl) * Z.of_nat (length cl)) <=
  sumZ (map (fun r => sumZ (map (fun c =>
     evaluate_window (map (cellf r c) (range 0 4)) player) cl)) rl) <=
  100 * (Z.of_nat (length rl) * Z.of_nat (length cl)).
Proof.
  apply (sumZ_bounds2
           (fun r c => evaluate_window (map (cellf r c) (range 0 4)) player)).
  intros r c. apply evaluate_window_range.
Qed.

(** The bounds of [evaluate_board] in terms of the number of windows. *)
Lemma evaluate_board_range g player :
  wf g ->
  -4 * window_count g <= evaluate_board g player <= 3 * rows g + 100 * window_count g.
Proof.
  intros (Hr & Hc & _). unfold evaluate_board, window_count. cbn zeta.
  rewrite !for_loop_add2.
  pose proof (count_le_length
                (map (fun row => cell g row (cols g / 2)) (range 0 (rows g))) player) as Hcen.
  rewrite length_map, length_range_Z in Hcen.
  pose proof (axis_range player (fun r c i => cell g r (c + i))
                (range 0 (rows g)) (range 0 (cols g - 3))) as H1.
  pose proof (axis_range player (fun r c i => cell g (r + i) c)
                (range 0 (rows g - 3)) (range 0 (cols g))) as H2.
  pose proof (axis_range player (fun r c i => cell g (r + i) (c + i))
                (range 0 (rows g - 3)) (range 0 (cols g - 3))) as H3.
  pose proof (axis_range player (fun r c i => cell g (r + i) (c - i))
                (range 0 (rows g - 3)) (range 3 (cols g))) as H4.
  cbv beta in H1, H2, H3, H4.
  rewrite !length_range_Z in *.
  replace (rows g - 0) with (rows g) in * by lia.
  replace (cols g - 0) with (cols g) in * by lia.
  replace (rows g - 3 - 0) with (rows g - 3) in * by lia.
  replace (cols g - 3 - 0) with (cols g - 3) in * by lia.
  replace (Z.max 0 (rows g)) with (rows g) in * by lia.
  replace (Z.max 0 (cols g)) with (cols g) in * by lia.
  lia.
Qed.

Lemma window_count_le g :
  wf g -> 0 <= window_count g <= 4 * (rows g * cols g).
Proof.
  intros (Hr & Hc & _). unfold window_count.
  assert (0 <= Z.max 0 (rows g - 3) <= rows g) by lia.
  assert (0 <= Z.max 0 (cols g - 3) <= cols g) by lia.
  nia.
Qed.

(** X8. The heuristic is bounded by the number of windows: it lies
    between -4 per window and 100 per window plus 3 per row.  On a grid
    of at most 2,000,000 cells it therefore stays strictly between the
    two terminal scores -1000000000 and 1000000000. *)
Theorem evaluate_board_bounded :
  forall (g : ConnectFour) (player : Z),
    wf g ->
    (-4 * window_count g <= evaluate_board g player
       <= 3 * rows g + 100 * window_count g) /\
    (rows g * cols g <= 2000000 ->
     -1000000000 < evaluate_board g player < 1000000000).
Proof.
  intros g player Hwf.
  pose proof (evaluate_board_range g player Hwf) as Hb.
  split; [exact Hb|]. intros Hsize.
  pose proof (window_count_le g Hwf) as Hw.
  destruct Hwf as (Hr & Hc & _).
  assert (rows g <= rows g * cols g) by nia.
  lia.
Qed.

(** ** The scores of the search are integers within the terminal scores *)


(** What the loops keep: a property of scores that holds of every child
    score and only of integers holds of the result. *)
Section ScanKeeps.
  Variable P : ext -> Prop.
  Hypothesis P_fin : forall e, P e -> exists z, e = Fin z.

Lemma max_scan_keeps prune rec moves beta :
  (forall col a b, In col moves -> P (rec a b col)) ->
  forall value best alpha,
    P value \/ (value = NegInf /\ moves <> []) ->
    P (snd (max_scan prune rec moves value best alpha beta)).
Proof.
  induction moves as [|col l IH]; intros Hrec value best alpha Hv.
  - simpl. destruct Hv as [Hv|[_ Hne]]; [exact Hv | congruence].
  - assert (IH' := IH (fun c a b Hc => Hrec c a b (or_intror Hc))).
    pose proof (Hrec col alpha beta (or_introl eq_refl)) as Hs.
    simpl. destruct (ext_lt value (rec alpha beta col)) eqn:Hlt.
    + destruct (prune && _); [exact Hs | apply IH'; left; exact Hs].
    + assert (Hval : P value).
      { destruct Hv as [Hv|[-> _]]; [exact Hv|].
        destruct (P_fin _ Hs) as (z & Hz). rewrite Hz in Hlt. discriminate. }
      destruct (prune && _); [exact Hval | apply IH'; left; exact Hval].
Qed.

Lemma min_scan_keeps prune rec moves alpha :
  (forall col a b, In col moves -> P (rec a b col)) ->
  forall value best beta,
    P value \/ (value = PosInf /\ moves <> []) ->
    P (snd (min_scan prune rec moves value best alpha beta)).
Proof.
  induction moves as [|col l IH]; intros Hrec value best beta Hv.
  - simpl. destruct Hv as [Hv|[_ Hne]]; [exact Hv | congruence].
  - assert (IH' := IH (fun c a b Hc => Hrec c a b (or_intror Hc))).
    pose proof (Hrec col alpha beta (or_introl eq_refl)) as Hs.
    simpl. destruct (ext_lt (rec alpha beta col) value) eqn:Hlt.
    + destruct (prune && _); [exact Hs | apply IH'; left; exact Hs].
    + assert (Hval : P value).
      { destruct Hv as [Hv|[-> _]]; [exact Hv|].
        destruct (P_fin _ Hs) as (z & Hz). rewrite Hz in Hlt. discriminate. }
      destruct (prune && _); [exact Hval | apply IH'; left; exact Hval].
Qed.
End ScanKeeps.




(** ** Pruning changes nothing at the root *)

Lemma max_scan_top prune rec moves best alpha beta :
  max_scan prune rec moves PosInf best alpha beta = (best, PosInf).
Proof.
  revert alpha. induction moves as [|col l IH]; intros alpha; [reflexivity|].
  simpl. destruct (prune && _); [reflexivity | apply IH].
Qed.

Lemma min_scan_bottom prune rec moves best alpha beta :
  min_scan prune rec moves NegInf best alpha beta = (best, NegInf).
Proof.
  revert beta. induction moves as [|col l IH]; intros beta; [reflexivity|].
  simpl. destruct (rec alpha beta col); simpl;
    (destruct (prune && _); [reflexivity | apply IH]).
Qed.

Lemma ext_max_eq_above value s e :
  ext_max value s = ext_max value e -> ext_lt value s = true ->
  s = e /\ ext_lt value e = true.
Proof. ext_cases; split; try reflexivity; try f_equal; try lia; ext_cases. Qed.

Lemma ext_max_eq_below value s e :
  ext_max value s = ext_max value e -> ext_lt value s = false ->
  ext_lt value e = false.
Proof. ext_cases. Qed.

Lemma ext_min_eq_below value s e :
  ext_min value s = ext_min value e -> ext_lt s value = true ->
  s = e /\ ext_lt e value = true.
Proof. ext_cases; split; try reflexivity; try f_equal; try lia; ext_cases. Qed.

Lemma ext_min_eq_above value s e :
  ext_min value s = ext_min value e -> ext_lt s value = false ->
  ext_lt e value = false.
Proof. ext_cases. Qed.

Lemma ext_lt_PosInf x : ext_lt x PosInf = false -> x = PosInf.
Proof. ext_cases. Qed.

Lemma ext_lt_NegInf x : ext_lt NegInf x = false -> x = NegInf.
Proof. ext_cases. Qed.

(** At the root of a maximizing node, with no upper bound, the pruned
    loop takes the same decisions as the loop on the exact values. *)
Lemma max_scan_root rec val moves :
  (forall col a, In col moves -> ext_lt a PosInf = true ->
     ext_max a (rec a PosInf col) = ext_max a (val col)) ->
  forall value best,
    max_scan true rec moves value best value PosInf =
    max_scan false (fun _ _ => val) moves value best value PosInf.
Proof.
  induction moves as [|col l IH]; intros Hrec value best; [reflexivity|].
  assert (IH' := IH (fun c a Hc => Hrec c a (or_intror Hc))).
  destruct (ext_lt value PosInf) eqn:Hfin.
  2:{ apply ext_lt_PosInf in Hfin. subst value. rewrite !max_scan_top. reflexivity. }
  pose proof (Hrec col value (or_introl eq_refl) Hfin) as Hs.
  simpl. destruct (ext_lt value (rec value PosInf col)) eqn:Hlt.
  - destruct (ext_max_eq_above _ _ _ Hs Hlt) as (Heq & Hlt').
    rewrite <- Heq, Hlt.
    assert (Hmax : ext_max value (rec value PosInf col) = rec value PosInf col)
      by (unfold ext_max; rewrite Hlt; reflexivity).
    rewrite Hmax.
    destruct (ext_ge (rec value PosInf col) PosInf) eqn:Hbrk.
    + unfold ext_ge in Hbrk. apply negb_true_iff in Hbrk.
      apply ext_lt_PosInf in Hbrk. rewrite Hbrk. rewrite max_scan_top. reflexivity.
    + apply IH'.
  - rewrite (ext_max_eq_below _ _ _ Hs Hlt).
    assert (Hmax : ext_max value value = value)
      by (unfold ext_max; rewrite ext_lt_irrefl; reflexivity).
    rewrite Hmax. unfold ext_ge. rewrite Hfin. simpl. apply IH'.
Qed.

Lemma min_scan_root rec val moves :
  (forall col b, In col moves -> ext_lt NegInf b = true ->
     ext_min b (rec NegInf b col) = ext_min b (val col)) ->
  forall value best,
    min_scan true rec moves value best NegInf value =
    min_scan false (fun _ _ => val) moves value best NegInf value.
Proof.
  induction moves as [|col l IH]; intros Hrec value best; [reflexivity|].
  assert (IH' := IH (fun c b Hc => Hrec c b (or_intror Hc))).
  destruct (ext_lt NegInf value) eqn:Hfin.
  2:{ apply ext_lt_NegInf in Hfin. subst value. rewrite !min_scan_bottom. reflexivity. }
  pose proof (Hrec col value (or_introl eq_refl) Hfin) as Hs.
  simpl. destruct (ext_lt (rec NegInf value col) value) eqn:Hlt.
  - destruct (ext_min_eq_below _ _ _ Hs Hlt) as (Heq & Hlt').
    rewrite <- Heq, Hlt.
    assert (Hmin : ext_min value (rec NegInf value col) = rec NegInf value col)
      by (unfold ext_min; rewrite Hlt; reflexivity).
    rewrite Hmin.
    destruct (ext_ge NegInf (rec NegInf value col)) eqn:Hbrk.
    + unfold ext_ge in Hbrk. apply negb_true_iff in Hbrk.
      apply ext_lt_NegInf in Hbrk. rewrite Hbrk. rewrite min_scan_bottom. reflexivity.
    + apply IH'.
  - rewrite (ext_min_eq_above _ _ _ Hs Hlt).
    assert (Hmin : ext_min value value = value)
      by (unfold ext_min; rewrite ext_lt_irrefl; reflexivity).
    rewrite Hmin. unfold ext_ge. rewrite Hfin. simpl. apply IH'.
Qed.

Lemma clamp_no_upper a x : clamp a PosInf x = ext_max a x.
Proof. unfold clamp. rewrite ext_min_PosInf_l. reflexivity. Qed.

Lemma clamp_no_lower b x : clamp NegInf b x = ext_min b x.
Proof. unfold clamp. rewrite ext_max_NegInf_l. reflexivity. Qed.

(** With the full window the pruned search and the exhaustive search
    agree on the column and on the score. *)
Lemma search_root_same fuel depth m g :
  search true fuel depth NegInf PosInf m g = search false fuel depth NegInf PosInf m g.
Proof.
  destruct fuel as [|fuel]; [reflexivity|].
  cbn [search]. destruct (is_leaf depth g); [reflexivity|]. cbn zeta.
  destruct m.
  - rewrite (max_scan_root _
               (fun col => value_of fuel (depth - 1) false (child g col 2))).
    + rewrite (max_scan_ext false
                 (fun a b col => snd (search false fuel (depth - 1) a b false (child g col 2)))
                 (fun _ _ col => value_of fuel (depth - 1) false (child g col 2)));
        [reflexivity|].
      intros col a b _. apply search_exhaustive_value.
    + intros col a _ Ha. rewrite <- !clamp_no_upper.
      apply search_pruned_clamp. exact Ha.
  - rewrite (min_scan_root _
               (fun col => value_of fuel (depth - 1) true (child g col 1))).
    + rewrite (min_scan_ext false
                 (fun a b col => snd (search false fuel (depth - 1) a b true (child g col 1)))
                 (fun _ _ col => value_of fuel (depth - 1) true (child g col 1)));
        [reflexivity|].
      intros col a b _. apply search_exhaustive_value.
    + intros col b _ Hb. rewrite <- !clamp_no_lower.
      apply search_pruned_clamp. exact Hb.
Qed.

(** X10. Called with the full window, [minimax] returns exactly what
    the recursion without the pruning [break] returns: the same column
    as well as the same score, for either side and every depth. *)
Theorem pruning_preserves_root_move :
  forall (fuel : nat) (depth : Z) (maximizing : bool) (g : ConnectFour),
    wf g -> (empties g < fuel)%nat ->
    minimax fuel depth NegInf PosInf maximizing g =
    minimax_exhaustive fuel depth NegInf PosInf maximizing g.
Proof.
  intros fuel depth m g Hwf Hfuel. unfold minimax, minimax_exhaustive.
  rewrite !minimax_with_search by assumption.
  rewrite search_root_same. reflexivity.
Qed.

(** ** The column the search chooses *)

Lemma ext_lt_le_trans a b c :
  ext_lt a b = true -> ext_lt c b = false -> ext_lt a c = true.
Proof. ext_cases. Qed.

Lemma ext_le_lt_trans a b c :
  ext_lt b a = false -> ext_lt b c = true -> ext_lt a c = true.
Proof. ext_cases. Qed.

(** The exhaustive maximizing loop returns the largest value and the
    first column that reaches it. *)
Lemma max_scan_first_best val moves :
  forall value best alpha beta,
    let r := max_scan false (fun _ _ => val) moves value best alpha beta in
    (forall c, In c moves -> ext_lt (snd r) (val c) = false) /\
    ext_lt (snd r) value = false /\
    ((fst r = best /\ snd r = value) \/
     (exists l1 l2, moves = l1 ++ fst r :: l2 /\ val (fst r) = snd r /\
                    ext_lt value (snd r) = true /\
                    forall c, In c l1 -> ext_lt (val c) (snd r) = true)).
Proof.
  induction moves as [|col l IH]; intros value best alpha beta.
  - simpl. split; [intros c []|]. split; [apply ext_lt_irrefl|]. left. auto.
  - cbn zeta. simpl. destruct (ext_lt value (val col)) eqn:Hlt.
    + specialize (IH (val col) col (ext_max alpha (val col)) beta). cbn zeta in IH.
      set (r := max_scan false (fun _ _ => val) l (val col) col
                  (ext_max alpha (val col)) beta) in *.
      destruct IH as (Hall & Hge & Hcase).
      split; [|split].
      * intros c [<-|Hc]; [exact Hge | apply Hall; exact Hc].
      * apply ext_lt_asym. eapply ext_lt_le_trans; [exact Hlt | exact Hge].
      * right. destruct Hcase as [(Hb & Hv)|(l1 & l2 & Hl & Hv & Hgt & Hbefore)].
        -- exists [], l. rewrite Hb, Hv. split; [reflexivity|].
           split; [reflexivity|]. split; [exact Hlt|]. intros c [].
        -- exists (col :: l1), l2. split; [rewrite Hl at 1; reflexivity|].
           split; [exact Hv|].
           split; [eapply ext_lt_le_trans; [exact Hlt | exact Hge]|].
           intros c [<-|Hc]; [exact Hgt | apply Hbefore; exact Hc].
    + specialize (IH value best (ext_max alpha value) beta). cbn zeta in IH.
      set (r := max_scan false (fun _ _ => val) l value best
                  (ext_max alpha value) beta) in *.
      destruct IH as (Hall & Hge & Hcase).
      split; [|split].
      * intros c [<-|Hc]; [|apply Hall; exact Hc].
        eapply ext_ge_trans; [exact Hge | exact Hlt].
      * exact Hge.
      * destruct Hcase as [(Hb & Hv)|(l1 & l2 & Hl & Hv & Hgt & Hbefore)];
          [left; auto|].
        right. exists (col :: l1), l2. split; [rewrite Hl at 1; reflexivity|].
        split; [exact Hv|]. split; [exact Hgt|].
        intros c [<-|Hc]; [|apply Hbefore; exact Hc].
        eapply ext_le_lt_trans; [exact Hlt | exact Hgt].
Qed.

Lemma max_of_fin (l : list ext) :
  l <> [] -> (forall e, In e l -> exists z, e = Fin z) -> exists z, max_of l = Fin z.
Proof.
  induction l as [|a l IH]; intros Hne Hall; [congruence|].
  destruct (Hall a (or_introl eq_refl)) as (za & ->).
  destruct l as [|b l'].
  - exists za. reflexivity.
  - destruct IH as (z & Hz); [discriminate | intros e He; apply Hall; right; exact He|].
    change (max_of (Fin za :: b :: l')) with (ext_max (Fin za) (max_of (b :: l'))).
    rewrite Hz. unfold ext_max. simpl. destruct (za <? z); eauto.
Qed.

Lemma min_of_fin (l : list ext) :
  l <> [] -> (forall e, In e l -> exists z, e = Fin z) -> exists z, min_of l = Fin z.
Proof.
  induction l as [|a l IH]; intros Hne Hall; [congruence|].
  destruct (Hall a (or_introl eq_refl)) as (za & ->).
  destruct l as [|b l'].
  - exists za. reflexivity.
  - destruct IH as (z & Hz); [discriminate | intros e He; apply Hall; right; exact He|].
    change (min_of (Fin za :: b :: l')) with (ext_min (Fin za) (min_of (b :: l'))).
    rewrite Hz. unfold ext_min. simpl. destruct (z <? za); eauto.
Qed.

(** The minimax value of a position is an integer. *)
Lemma value_of_fin fuel :
  forall depth m g, exists z, value_of fuel depth m g = Fin z.
Proof.
  induction fuel as [|fuel IH]; intros depth m g; [exists 0; reflexivity|].
  cbn [value_of]. destruct (is_leaf depth g) eqn:Hleaf.
  - unfold leaf_score.
    destruct (check_winner g 2); [eauto|].
    destruct (check_winner g 1); [eauto|].
    destruct (is_board_full g); eauto.
  - assert (Hne : get_valid_moves g <> []).
    { intros E. rewrite (no_moves_leaf depth g E) in Hleaf. discriminate. }
    destruct m.
    + apply max_of_fin.
      * destruct (get_valid_moves g); [congruence | discriminate].
      * intros e He. apply in_map_iff in He. destruct He as (c & <- & _). apply IH.
    + apply min_of_fin.
      * destruct (get_valid_moves g); [congruence | discriminate].
      * intros e He. apply in_map_iff in He. destruct He as (c & <- & _). apply IH.
Qed.

(** The value of a position does not depend on the fuel. *)
Lemma value_of_fuel fuel fuel' depth m g :
  wf g -> (empties g < fuel)%nat -> (empties g < fuel')%nat ->
  value_of fuel depth m g = value_of fuel' depth m g.
Proof.
  intros Hwf Hf Hf'.
  rewrite <- (search_exhaustive_value fuel depth NegInf PosInf m g).
  rewrite <- (search_exhaustive_value fuel' depth NegInf PosInf m g).
  rewrite (search_fuel false fuel fuel') by assumption. reflexivity.
Qed.

(** What [minimax] with the full window returns is the value of the
    position. *)
Lemma minimax_full_window_value fuel depth m g :
  wf g -> (empties g < fuel)%nat ->
  exists col,
    minimax fuel depth NegInf PosInf m g = Some ((col, value_of fuel depth m g), g).
Proof.
  intros Hwf Hfuel. unfold minimax. rewrite minimax_with_search by assumption.
  exists (fst (search true fuel depth NegInf PosInf m g)).
  rewrite search_root_same.
  rewrite <- (search_exhaustive_value fuel depth NegInf PosInf m g).
  rewrite <- surjective_pairing. reflexivity.
Qed.

Lemma StronglySorted_middle (l1 l2 : list Z) (x y : Z) :
  StronglySorted Z.lt (l1 ++ x :: l2) -> In y l2 -> x < y.
Proof.
  induction l1 as [|a l1 IH]; simpl; intros Hs Hy.
  - apply StronglySorted_inv in Hs. destruct Hs as (_ & Hall).
    rewrite List.Forall_forall in Hall. apply Hall. exact Hy.
  - apply StronglySorted_inv in Hs. destruct Hs as (Hs & _). apply IH; assumption.
Qed.

(** X11. Away from the leaves, [minimax] for the maximizing side (the
    automated player, as [get_ai_move] calls it) returns a valid column
    whose own score, the result of [minimax] one level down on the board
    with PlayerB's piece in that column, is the returned score; no valid
    column scores more, and every valid column to its left scores
    strictly less: ties go to the lowest column. *)
Theorem minimax_chooses_lowest_best_column :
  forall (fuel : nat) (depth : Z) (g : ConnectFour),
    wf g -> (empties g < fuel)%nat ->
    depth <> 0 -> check_winner g 1 = false -> check_winner g 2 = false ->
    is_board_full g = false ->
    exists best score,
      minimax fuel depth NegInf PosInf true g = Some ((Some best, Fin score), g) /\
      is_valid_move g best = true /\
      forall c, is_valid_move g c = true ->
        exists col' z,
          minimax fuel (depth - 1) NegInf PosInf false (place g c 2) =
            Some ((col', Fin z), place g c 2) /\
          z <= score /\ (c < best -> z < score) /\ (c = best -> z = score).
Proof.
  intros fuel depth g Hwf Hfuel Hd H1 H2 Hfull.
  assert (Hleaf : is_leaf depth g = false).
  { unfold is_leaf. rewrite H1, H2, Hfull.
    destruct (Z.eqb_spec depth 0); [contradiction | reflexivity]. }
  assert (Hne : get_valid_moves g <> []).
  { intros E. rewrite (no_moves_leaf depth g E) in Hleaf. discriminate. }
  destruct fuel as [|fuel]; [lia|].
  set (val := fun col => value_of fuel (depth - 1) false (child g col 2)).
  (* the root, through the exhaustive loop on the children's values *)
  assert (Hroot : search true (S fuel) depth NegInf PosInf true g =
                  let r := max_scan false (fun _ _ => val) (get_valid_moves g) NegInf
                             (fallback_column (get_valid_moves g)) NegInf PosInf in
                  (Some (fst r), snd r)).
  { rewrite search_root_same. cbn [search]. rewrite Hleaf. cbn zeta.
    rewrite (max_scan_ext false
               (fun a b col => snd (search false fuel (depth - 1) a b false (child g col 2)))
               (fun _ _ col => val col))
      by (intros col a b _; apply search_exhaustive_value).
    destruct (max_scan _ _ _ _ _ _ _). reflexivity. }
  cbn zeta in Hroot.
  pose proof (max_scan_first_best val (get_valid_moves g) NegInf
                (fallback_column (get_valid_moves g)) NegInf PosInf) as Hbest.
  cbn zeta in Hbest.
  set (r := max_scan false (fun _ _ => val) (get_valid_moves g) NegInf
              (fallback_column (get_valid_moves g)) NegInf PosInf) in *.
  destruct Hbest as (Hall & _ & Hcase).
  (* the children *)
  assert (Hchild : forall c, is_valid_move g c = true ->
            exists col' z, val c = Fin z /\
              minimax (S fuel) (depth - 1) NegInf PosInf false (place g c 2) =
              Some ((col', Fin z), place g c 2)).
  { intros c Hc. rewrite place_valid by assumption.
    pose proof (empties_child_lt g c 2 Hwf Hc ltac:(lia)) as Hlt.
    destruct (minimax_full_window_value (S fuel) (depth - 1) false (child g c 2))
      as (col' & Hmm); [apply wf_child; exact Hwf | lia |].
    destruct (value_of_fin fuel (depth - 1) false (child g c 2)) as (z & Hz).
    exists col', z. split; [exact Hz|]. rewrite Hmm.
    rewrite (value_of_fuel (S fuel) fuel) by (try apply wf_child; auto; lia).
    rewrite Hz. reflexivity. }
  destruct Hcase as [(_ & Hv)|(l1 & l2 & Hl & Hv & _ & Hbefore)].
  { (* the loop kept the initial value: impossible, the first child is an integer *)
    exfalso. destruct (get_valid_moves g) as [|c0 l0] eqn:E; [congruence|].
    assert (Hc0 : is_valid_move g c0 = true)
      by (apply In_get_valid_moves; rewrite E; left; reflexivity).
    destruct (Hchild c0 Hc0) as (_ & z & Hz & _).
    specialize (Hall c0 (or_introl eq_refl)). rewrite Hv, Hz in Hall. discriminate. }
  assert (Hbv : is_valid_move g (fst r) = true).
  { apply In_get_valid_moves. rewrite Hl. apply in_elt. }
  destruct (Hchild (fst r) Hbv) as (_ & score & Hscore & _).
  exists (fst r), score. split; [|split; [exact Hbv|]].
  - unfold minimax. rewrite minimax_with_search by assumption.
    rewrite Hroot. rewrite <- Hv, Hscore. reflexivity.
  - intros c Hc. destruct (Hchild c Hc) as (col' & z & Hz & Hmm).
    exists col', z. split; [exact Hmm|].
    assert (Hin : In c (get_valid_moves g)) by (apply In_get_valid_moves; exact Hc).
    pose proof (Hall c Hin) as Hle. rewrite <- Hv, Hscore, Hz in Hle.
    simpl in Hle. apply Z.ltb_ge in Hle.
    split; [exact Hle|]. split.
    + intros Hlt.
      assert (Hc1 : In c l1).
      { rewrite Hl in Hin. apply in_app_or in Hin.
        destruct Hin as [Hin|[Heq|Hin]]; [exact Hin | lia |].
        assert (Hs : StronglySorted Z.lt (l1 ++ fst r :: l2)).
        { rewrite <- Hl. unfold get_valid_moves.
          apply StronglySorted_list_filter, StronglySorted_range. }
        pose proof (StronglySorted_middle _ _ _ _ Hs Hin). lia. }
      pose proof (Hbefore c Hc1) as Hb. rewrite <- Hv, Hscore, Hz in Hb.
      simpl in Hb. apply Z.ltb_lt in Hb. exact Hb.
    + intros ->. rewrite Hscore in Hz. congruence.
Qed.

(** ** Searching to the end of the game *)

Lemma plays_out_nonzero depth g : plays_out depth g -> depth <> 0.
Proof. unfold plays_out. lia. Qed.

Lemma plays_out_child depth g col player :
  wf g -> is_valid_move g col = true -> player <> 0 ->
  plays_out depth g -> plays_out (depth - 1) (child g col player).
Proof.
  intros Hwf Hv Hp Hd. pose proof (empties_child_lt g col player Hwf Hv Hp).
  unfold plays_out in *. lia.
Qed.

Lemma terminal_score_fin e : terminal_score e -> exists z, e = Fin z.
Proof. intros [->|[->| ->]]; eauto. Qed.

Lemma search_terminal_score prune fuel :
  forall depth alpha beta m g,
    wf g -> (empties g < fuel)%nat -> plays_out depth g ->
    terminal_score (snd (search prune fuel depth alpha beta m g)).
Proof.
  induction fuel as [|fuel IH]; intros depth alpha beta m g Hwf Hfuel Hd; [lia|].
  cbn [search]. destruct (is_leaf depth g) eqn:Hleaf.
  - simpl. unfold is_leaf in Hleaf. unfold leaf_score, terminal_score.
    destruct (Z.eqb_spec depth 0) as [E|_];
      [apply plays_out_nonzero in Hd; contradiction|].
    simpl in Hleaf.
    destruct (check_winner g 2); [auto|].
    destruct (check_winner g 1); [auto|].
    simpl in Hleaf. rewrite Hleaf. auto.
  - cbn zeta.
    assert (Hne : get_valid_moves g <> []).
    { intros E. rewrite (no_moves_leaf depth g E) in Hleaf. discriminate. }
    destruct m.
    + match goal with |- context [max_scan ?p ?r ?l ?v ?b ?a ?be] =>
        pose proof (max_scan_keeps terminal_score terminal_score_fin p r l be) as H;
        destruct (max_scan p r l v b a be) as [bc v'] eqn:E end.
      simpl.
      specialize (H (fun col a b Hin =>
        let Hv := proj1 (In_get_valid_moves g col) Hin in
        IH (depth - 1) a b false (child g col 2) (wf_child g col 2 Hwf)
           ltac:(pose proof (empties_child_lt g col 2 Hwf Hv ltac:(lia)); lia)
           (plays_out_child depth g col 2 Hwf Hv ltac:(lia) Hd))
        NegInf (fallback_column (get_valid_moves g)) alpha
        (or_intror (conj eq_refl Hne))).
      rewrite E in H. exact H.
    + match goal with |- context [min_scan ?p ?r ?l ?v ?b ?a ?be] =>
        pose proof (min_scan_keeps terminal_score terminal_score_fin p r l a) as H;
        destruct (min_scan p r l v b a be) as [bc v'] eqn:E end.
      simpl.
      specialize (H (fun col a b Hin =>
        let Hv := proj1 (In_get_valid_moves g col) Hin in
        IH (depth - 1) a b true (child g col 1) (wf_child g col 1 Hwf)
           ltac:(pose proof (empties_child_lt g col 1 Hwf Hv ltac:(lia)); lia)
           (plays_out_child depth g col 1 Hwf Hv ltac:(lia) Hd))
        PosInf (fallback_column (get_valid_moves g)) beta
        (or_intror (conj eq_refl Hne))).
      rewrite E in H. exact H.
Qed.

Lemma search_depth prune fuel :
  forall depth depth' alpha beta m g,
    wf g -> (empties g < fuel)%nat ->
    plays_out depth g -> plays_out depth' g ->
    search prune fuel depth alpha beta m g = search prune fuel depth' alpha beta m g.
Proof.
  induction fuel as [|fuel IH]; intros depth depth' alpha beta m g Hwf Hfuel Hd Hd';
    [lia|].
  cbn [search].
  assert (Hleaf : is_leaf depth g = is_leaf depth' g).
  { unfold is_leaf. apply plays_out_nonzero in Hd, Hd'.
    destruct (Z.eqb_spec depth 0); [contradiction|].
    destruct (Z.eqb_spec depth' 0); [contradiction|]. reflexivity. }
  rewrite <- Hleaf. destruct (is_leaf depth g); [reflexivity|]. cbn zeta.
  destruct m.
  - rewrite (max_scan_ext prune _
      (fun a b col => snd (search prune fuel (depth' - 1) a b false (child g col 2))));
      [reflexivity|].
    intros col a b Hin. apply In_get_valid_moves in Hin. f_equal.
    pose proof (empties_child_lt g col 2 Hwf Hin ltac:(lia)).
    apply IH; [apply wf_child; exact Hwf | lia | |];
      apply plays_out_child; auto; lia.
  - rewrite (min_scan_ext prune _
      (fun a b col => snd (search prune fuel (depth' - 1) a b true (child g col 1))));
      [reflexivity|].
    intros col a b Hin. apply In_get_valid_moves in Hin. f_equal.
    pose proof (empties_child_lt g col 1 Hwf Hin ltac:(lia)).
    apply IH; [apply wf_child; exact Hwf | lia | |];
      apply plays_out_child; auto; lia.
Qed.

(** X15. A search that cannot reach its depth limit (a depth above the
    number of empty cells, or a negative depth) only stops at finished
    games: the score it returns is 1000000000, 0 or -1000000000, never a
    heuristic value, whatever the window and the side. *)
Theorem full_depth_score_is_terminal :
  forall (fuel : nat) (depth : Z) (alpha beta : ext) (maximizing : bool)
         (g : ConnectFour),
    wf g -> (empties g < fuel)%nat ->
    depth < 0 \/ Z.of_nat (empties g) < depth ->
    exists col score,
      minimax fuel depth alpha beta maximizing g = Some ((col, Fin score), g) /\
      (score = 1000000000 \/ score = 0 \/ score = -1000000000).
Proof.
  intros fuel depth alpha beta m g Hwf Hfuel Hd.
  unfold minimax. rewrite minimax_with_search by assumption.
  pose proof (search_terminal_score true fuel depth alpha beta m g Hwf Hfuel Hd) as H.
  exists (fst (search true fuel depth alpha beta m g)).
  destruct (search true fuel depth alpha beta m g) as [c s]. simpl in *.
  destruct H as [->|[->| ->]]; eexists; split; eauto.
Qed.

(** X16. Beyond the number of empty cells the depth makes no
    difference: any two depths that the search cannot exhaust, negative
    ones included, give the same column and the same score. *)
Theorem depth_beyond_end_is_irrelevant :
  forall (fuel : nat) (depth depth' : Z) (alpha beta : ext) (maximizing : bool)
         (g : ConnectFour),
    wf g -> (empties g < fuel)%nat ->
    depth < 0 \/ Z.of_nat (empties g) < depth ->
    depth' < 0 \/ Z.of_nat (empties g) < depth' ->
    minimax fuel depth alpha beta maximizing g =
    minimax fuel depth' alpha beta maximizing g.
Proof.
  intros fuel depth depth' alpha beta m g Hwf Hfuel Hd Hd'.
  unfold minimax. rewrite !minimax_with_search by assumption.
  rewrite (search_depth true fuel depth depth') by assumption. reflexivity.
Qed.

Lemma wf_late_board : wf late_board.
Proof.
  unfold wf, late_board. simpl.
  repeat split; try lia. repeat constructor.
Qed.

Lemma full_depth_score_is_terminal_witness :
  exists col score,
    minimax 3 (-1) (Fin 5) PosInf true late_board = Some ((col, Fin score), late_board) /\
    (score = 1000000000 \/ score = 0 \/ score = -1000000000).
Proof.
  apply (full_depth_score_is_terminal 3 (-1) (Fin 5) PosInf true late_board).
  - exact wf_late_board.
  - vm_compute. lia.
  - left. lia.
Defined.

Lemma depth_beyond_end_is_irrelevant_witness :
  minimax 3 (-1) NegInf PosInf true late_board =
  minimax 3 4 NegInf PosInf true late_board.
Proof.
  apply (depth_beyond_end_is_irrelevant 3 (-1) 4 NegInf PosInf true late_board).
  - exact wf_late_board.
  - vm_compute. lia.
  - left. lia.
  - right. vm_compute. reflexivity.
Defined.

(** * The game loop *)

Lemma empties_le g : (empties g <= Z.to_nat (rows g) * Z.to_nat (cols g))%nat.
Proof.
  unfold empties. rewrite <- length_positions. apply List.filter_length_le.
Qed.

Lemma pieces_set_cell_add g r c p :
  wf g -> 0 <= r < rows g -> 0 <= c < cols g -> cell g r c = 0 -> p <> 0 ->
  pieces (set_cell g r c p) p = S (pieces g p).
Proof.
  intros Hwf Hr Hc Hz Hp. unfold pieces.
  change (positions (set_cell g r c p)) with (positions g).
  apply (filter_length_remove _ _ _ (r, c)).
  - apply NoDup_positions.
  - apply In_positions. auto.
  - simpl. rewrite cell_set_cell_eq by auto. apply Z.eqb_refl.
  - simpl. rewrite Hz. apply Z.eqb_neq. congruence.
  - intros [r' c'] Hin Hne. simpl. apply In_positions in Hin.
    rewrite cell_set_cell_ne by (auto; lia). reflexivity.
Qed.

Lemma pieces_set_cell_other g r c p q :
  wf g -> 0 <= r < rows g -> 0 <= c < cols g -> cell g r c = 0 ->
  q <> 0 -> q <> p ->
  pieces (set_cell g r c p) q = pieces g q.
Proof.
  intros Hwf Hr Hc Hz Hq Hqp. unfold pieces.
  change (positions (set_cell g r c p)) with (positions g).
  apply filter_length_same.
  intros [r' c'] Hin. simpl. apply In_positions in Hin.
  destruct (decide ((r', c') = (r, c))) as [Heq|Hne].
  - inversion Heq; subst. rewrite cell_set_cell_eq by auto. rewrite Hz.
    transitivity false; [|symmetry]; apply Z.eqb_neq; congruence.
  - rewrite cell_set_cell_ne by (auto; lia). reflexivity.
Qed.

(** A piece of another player creates no win. *)
Lemma check_winner_child_other g col p q :
  wf g -> is_valid_move g col = true -> q <> p ->
  check_winner (child g col p) q = true -> check_winner g q = true.
Proof.
  intros Hwf Hv Hqp. unfold child.
  destruct (get_next_open_row_valid g col Hwf Hv) as (Hr & Hc & Hz).
  apply check_winner_mono; try reflexivity.
  intros r c Hrr Hcc.
  destruct (decide ((r, c) = (get_next_open_row g col, col))) as [Heq|Hne].
  - inversion Heq; subst. rewrite cell_set_cell_eq by auto. congruence.
  - rewrite cell_set_cell_ne by (auto; lia). auto.
Qed.

(** What both branches of the loop do after a piece was placed. *)
Lemma after_move_ok g col p :
  game_ok g -> game_over g = false -> current_player g = p ->
  is_valid_move g col = true ->
  game_ok (end_of_turn
             (if check_winner (snd (make_move g col p)) p
              then with_winner (with_game_over (snd (make_move g col p)) true) (Some p)
              else snd (make_move g col p))).
Proof.
  intros (Hwf & Hcur & Hcount & Hlive & _) Hover Hp Hv.
  destruct (Hlive Hover) as (Hw1 & Hw2 & Hfull & Hwin).
  pose proof Hwf as (Hrows & _).
  rewrite make_move_valid by assumption. cbn [snd].
  fold (child g col p).
  destruct (get_next_open_row_valid g col Hwf Hv) as (Hr & Hc & Hz).
  assert (Hwf' : wf (child g col p)) by (apply wf_child; exact Hwf).
  assert (Hcp : current_player (child g col p) = p) by exact Hp.
  assert (Hgo : game_over (child g col p) = false) by exact Hover.
  assert (Hwn : winner (child g col p) = None) by exact Hwin.
  assert (Hother : forall q, q <> p -> check_winner g q = false ->
                     check_winner (child g col p) q = false).
  { intros q Hq Hnot. destruct (check_winner (child g col p) q) eqn:E; [|reflexivity].
    apply check_winner_child_other in E; auto. congruence. }
  assert (Hpieces : pieces (child g col p) 1 =
                    (pieces (child g col p) 2 + (if (3 - p =? 2)%Z then 1 else 0))%nat).
  { rewrite Hp in Hcount, Hcur. unfold child.
    destruct Hcur as [-> | ->]; simpl in *.
    - rewrite pieces_set_cell_add, pieces_set_cell_other by (auto; lia). lia.
    - rewrite pieces_set_cell_add, pieces_set_cell_other by (auto; lia). lia. }
  generalize dependent (child g col p). intros g1 Hwf' Hcp Hgo Hwn Hother Hpieces.
  unfold end_of_turn.
  destruct (check_winner g1 p) eqn:Hwon.
  - (* the move wins *)
    cbn [game_over with_winner with_game_over negb]. rewrite andb_false_r.
    unfold game_ok. cbn [with_current_player with_winner with_game_over
                         rows cols board current_player game_over winner].
    split; [exact Hwf'|]. rewrite Hcp.
    split; [rewrite Hp in Hcur; lia|]. split; [exact Hpieces|].
    split; [discriminate|]. intros _.
    rewrite Hp in Hcur. destruct Hcur as [-> | ->]; [left | right; left];
      split; auto.
  - rewrite Hgo. cbn [negb]. rewrite andb_true_r.
    assert (Hno1 : check_winner g1 1 = false).
    { rewrite Hp in Hcur. destruct Hcur as [-> | ->];
        [exact Hwon | apply Hother; [lia | exact Hw1]]. }
    assert (Hno2 : check_winner g1 2 = false).
    { rewrite Hp in Hcur. destruct Hcur as [-> | ->];
        [apply Hother; [lia | exact Hw2] | exact Hwon]. }
    destruct (is_board_full g1) eqn:Hf.
    + (* a draw *)
      unfold game_ok. cbn [with_current_player with_game_over
                           rows cols board current_player game_over winner].
      split; [exact Hwf'|]. rewrite Hcp.
      split; [rewrite Hp in Hcur; lia|]. split; [exact Hpieces|].
      split; [discriminate|]. intros _. right; right. auto.
    + unfold game_ok. cbn [with_current_player
                           rows cols board current_player game_over winner].
      split; [exact Hwf'|]. rewrite Hcp.
      split; [rewrite Hp in Hcur; lia|]. split; [exact Hpieces|].
      split; [auto|]. intros E. congruence.
Qed.

Lemma human_turn_ok input g :
  game_ok g -> game_over g = false -> current_player g = 1 ->
  game_ok (human_turn input g).
Proof.
  intros Hok Hover Hp. unfold human_turn.
  destruct input as [col|]; [|exact Hok].
  destruct (is_valid_move g col) eqn:Hv; [|exact Hok].
  cbn [negb]. cbn zeta. apply after_move_ok; assumption.
Qed.

(** On a position that is not terminal, [get_ai_move] with a depth other
    than 0 returns a valid column. *)
Lemma get_ai_move_returns_valid fuel depth g :
  wf g -> (empties g < fuel)%nat -> depth <> 0 ->
  check_winner g 1 = false -> check_winner g 2 = false ->
  is_board_full g = false ->
  exists c, get_ai_move fuel depth g = Some (Some c, g) /\ is_valid_move g c = true.
Proof.
  intros Hwf Hfuel Hd H1 H2 Hfull.
  rewrite get_ai_move_unfold by exact Hwf.
  destruct (List.find (fun col => check_winner (child g col 2) 2) (get_valid_moves g))
    as [col|] eqn:Hwin.
  { exists col. split; [reflexivity|].
    apply find_some in Hwin. apply In_get_valid_moves. tauto. }
  destruct (List.find (fun col => check_winner (child g col 1) 1) (get_valid_moves g))
    as [col|] eqn:Hblock.
  { exists col. split; [reflexivity|].
    apply find_some in Hblock. apply In_get_valid_moves. tauto. }
  unfold minimax. rewrite minimax_with_search by assumption.
  destruct fuel as [|fuel]; [lia|].
  assert (Hleaf : is_leaf depth g = false).
  { unfold is_leaf. rewrite H1, H2, Hfull.
    destruct (Z.eqb_spec depth 0); [contradiction | reflexivity]. }
  destruct (search_column_valid true fuel depth NegInf PosInf true g Hleaf)
    as (c & Hc & Hv).
  exists c. simpl. simpl in Hc. rewrite Hc. auto.
Qed.

Lemma ai_turn_ok fuel g :
  game_ok g -> game_over g = false -> current_player g = 2 ->
  (empties g < fuel)%nat ->
  exists col,
    is_valid_move g col = true /\
    ai_turn fuel g =
    State (end_of_turn
             (if check_winner (snd (make_move g col 2)) 2
              then with_winner (with_game_over (snd (make_move g col 2)) true) (Some 2)
              else snd (make_move g col 2))) /\
    game_ok (end_of_turn
               (if check_winner (snd (make_move g col 2)) 2
                then with_winner (with_game_over (snd (make_move g col 2)) true) (Some 2)
                else snd (make_move g col 2))).
Proof.
  intros Hok Hover Hp Hfuel.
  pose proof Hok as (Hwf & _ & _ & Hlive & _).
  destruct (Hlive Hover) as (Hw1 & Hw2 & Hfull & _).
  destruct (get_ai_move_returns_valid fuel 4 g Hwf Hfuel ltac:(lia) Hw1 Hw2 Hfull)
    as (col & Hmove & Hv).
  exists col. split; [exact Hv|]. split.
  - unfold ai_turn. rewrite Hmove. reflexivity.
  - apply after_move_ok; assumption.
Qed.

Lemma size_make_move g col p :
  rows (snd (make_move g col p)) = rows g /\ cols (snd (make_move g col p)) = cols g.
Proof.
  unfold make_move. destruct (negb (is_valid_move g col)); [auto|].
  destruct (List.find _ _); auto.
Qed.

Lemma size_end_of_turn g :
  rows (end_of_turn g) = rows g /\ cols (end_of_turn g) = cols g.
Proof. unfold end_of_turn. destruct (_ && _); auto. Qed.

Lemma size_after_move g col p :
  let g1 := snd (make_move g col p) in
  let g2 := end_of_turn (if check_winner g1 p
                         then with_winner (with_game_over g1 true) (Some p) else g1) in
  rows g2 = rows g /\ cols g2 = cols g.
Proof.
  cbn zeta. destruct (size_make_move g col p) as (Hr & Hc).
  match goal with |- rows (end_of_turn ?x) = _ /\ _ =>
    destruct (size_end_of_turn x) as (Hr' & Hc'); rewrite Hr', Hc' end.
  destruct (check_winner _ p); auto.
Qed.

(** The loop keeps [game_ok] and never stops on an error. *)
Lemma game_loop_ok fuel n :
  forall inputs g,
    game_ok g ->
    (Z.to_nat (rows g) * Z.to_nat (cols g) < fuel)%nat ->
    exists g', game_loop fuel n inputs g = State g' /\ game_ok g' /\
               rows g' = rows g /\ cols g' = cols g.
Proof.
  induction n as [|n IH]; intros inputs g Hok Hfuel; [exists g; auto|].
  cbn [game_loop]. destruct (game_over g) eqn:Hover; [exists g; auto|].
  destruct (Z.eqb_spec (current_player g) 1) as [Hp|Hp].
  - destruct inputs as [|input inputs]; [exists g; auto|].
    pose proof (human_turn_ok input g Hok Hover Hp) as Hok'.
    assert (Hsize : rows (human_turn input g) = rows g /\
                    cols (human_turn input g) = cols g).
    { unfold human_turn. destruct input as [col|]; [|auto].
      destruct (is_valid_move g col) eqn:Hv; [|auto]. cbn [negb]. cbn zeta.
      apply size_after_move. }
    destruct Hsize as (Hrs & Hcs).
    destruct (IH inputs (human_turn input g) Hok') as (g' & Hrun & Hg' & Hr' & Hc').
    { rewrite Hrs, Hcs. exact Hfuel. }
    exists g'. rewrite Hrs in Hr'. rewrite Hcs in Hc'. auto.
  - assert (Hp2 : current_player g = 2).
    { destruct Hok as (_ & [H|H] & _); [contradiction | exact H]. }
    pose proof (empties_le g) as Hle.
    destruct (ai_turn_ok fuel g Hok Hover Hp2 ltac:(lia)) as (col & Hv & Hrun & Hok').
    rewrite Hrun.
    match goal with |- context [game_loop fuel n inputs ?g1] =>
      assert (Hsize : rows g1 = rows g /\ cols g1 = cols g)
    end.
    { apply size_after_move. }
    destruct Hsize as (Hrs & Hcs).
    match goal with |- context [game_loop fuel n inputs ?g1] =>
      destruct (IH inputs g1 Hok') as (g' & Hrun' & Hg' & Hr' & Hc')
    end.
    { rewrite Hrs, Hcs. exact Hfuel. }
    exists g'. rewrite Hrs in Hr'. rewrite Hcs in Hc'. auto.
Qed.

Lemma filter_none {A} (f : A -> bool) (l : list A) :
  (forall x, In x l -> f x = false) -> List.filter f l = [].
Proof.
  induction l as [|a l IH]; intros H; [reflexivity|].
  simpl. rewrite (H a (or_introl eq_refl)). apply IH.
  intros x Hx. apply H. right. exact Hx.
Qed.

Lemma pieces_init nrows ncols p : p <> 0 -> pieces (init nrows ncols) p = 0%nat.
Proof.
  intros Hp. unfold pieces. rewrite filter_none; [reflexivity|].
  intros [r c] _. simpl. rewrite cell_init. apply Z.eqb_neq. congruence.
Qed.

Lemma game_ok_init nrows ncols :
  0 < nrows -> 0 < ncols -> game_ok (init nrows ncols).
Proof.
  intros Hr Hc. unfold game_ok.
  split; [apply wf_init; assumption|].
  split; [left; reflexivity|].
  split; [rewrite !pieces_init by lia; reflexivity|].
  split; [|discriminate].
  intros _.
  assert (Hno : forall p, p <> 0 -> check_winner (init nrows ncols) p = false).
  { intros p Hp. destruct (check_winner (init nrows ncols) p) eqn:E; [|reflexivity].
    exfalso. unfold check_winner in E.
    rewrite !orb_true_iff, !existsb_range2 in E.
    destruct E as [[[H|H]|H]|H]; destruct H as (r & c & _ & _ & H);
      rewrite all4_spec in H; specialize (H 0 ltac:(lia));
      rewrite cell_init in H; apply Z.eqb_eq in H; congruence. }
  split; [apply Hno; lia|]. split; [apply Hno; lia|]. split; [|reflexivity].
  destruct (is_board_full (init nrows ncols)) eqn:E; [|reflexivity].
  unfold is_board_full in E. rewrite forallb_forall in E.
  specialize (E 0). rewrite cell_init in E. simpl in E.
  assert (true = false) as Habs; [|discriminate Habs].
  symmetry. apply E. apply In_range. simpl. lia.
Qed.

(** X12. On a position where nobody has four in a row and a column is
    open, the automated player's turn never raises: [get_ai_move()]
    returns a valid column, never [None], and the turn places PlayerB's
    piece in that column and hands the move over. *)
Theorem ai_turn_never_fails :
  forall (fuel : nat) (g : ConnectFour),
    wf g -> (empties g < fuel)%nat ->
    check_winner g 1 = false -> check_winner g 2 = false ->
    is_board_full g = false ->
    exists col g',
      ai_turn fuel g = State g' /\
      is_valid_move g col = true /\
      board g' = board (snd (make_move g col 2)) /\
      current_player g' = 3 - current_player g.
Proof.
  intros fuel g Hwf Hfuel H1 H2 Hfull.
  destruct (get_ai_move_returns_valid fuel 4 g Hwf Hfuel ltac:(lia) H1 H2 Hfull)
    as (col & Hmove & Hv).
  exists col. eexists. unfold ai_turn. rewrite Hmove.
  split; [reflexivity|]. split; [exact Hv|].
  unfold end_of_turn. destruct Hwf as (Hrows & _).
  rewrite make_move_valid by assumption. cbn [snd].
  clear H1 H2 Hfull.
  destruct (check_winner _ 2); destruct (_ && _); split; reflexivity.
Qed.

(** X13. A game started on a new grid never stops on an error, whatever
    the human types and however long it runs: the grid keeps its shape,
    the turn is always PlayerA's or PlayerB's, and the players alternate
    (PlayerA has as many pieces on the board as PlayerB, and one more
    exactly when PlayerB is to move). *)
Theorem game_loop_never_fails :
  forall (nrows ncols : Z) (fuel n : nat) (inputs : list (option Z)),
    0 < nrows -> 0 < ncols ->
    (Z.to_nat nrows * Z.to_nat ncols < fuel)%nat ->
    exists g',
      game_loop fuel n inputs (init nrows ncols) = State g' /\
      wf g' /\ rows g' = nrows /\ cols g' = ncols /\
      (current_player g' = 1 \/ current_player g' = 2) /\
      pieces g' 1 = (pieces g' 2 + (if (current_player g' =? 2)%Z then 1 else 0))%nat.
Proof.
  intros nrows ncols fuel n inputs Hr Hc Hfuel.
  destruct (game_loop_ok fuel n inputs (init nrows ncols)
              (game_ok_init nrows ncols Hr Hc) Hfuel)
    as (g' & Hrun & (Hwf & Hcur & Hcount & _) & Hrows & Hcols).
  exists g'. auto 10.
Qed.

(** X14. In every state a game reaches, the flags tell the truth.  While
    [game_over] is false nobody has four in a row, a column is open and
    no winner is recorded.  Once it is true, either [winner] is 1 and
    PlayerA has four in a row, or [winner] is 2 and PlayerB has four in
    a row, or no winner is recorded, the board is full and nobody has
    four in a row. *)
Theorem game_loop_reports_result :
  forall (nrows ncols : Z) (fuel n : nat) (inputs : list (option Z)),
    0 < nrows -> 0 < ncols ->
    (Z.to_nat nrows * Z.to_nat ncols < fuel)%nat ->
    exists g',
      game_loop fuel n inputs (init nrows ncols) = State g' /\
      (game_over g' = false ->
       check_winner g' 1 = false /\ check_winner g' 2 = false /\
       is_board_full g' = false /\ winner g' = None) /\
      (game_over g' = true ->
       (winner g' = Some 1 /\ check_winner g' 1 = true) \/
       (winner g' = Some 2 /\ check_winner g' 2 = true) \/
       (winner g' = None /\ is_board_full g' = true /\
        check_winner g' 1 = false /\ check_winner g' 2 = false)).
Proof.
  intros nrows ncols fuel n inputs Hr Hc Hfuel.
  destruct (game_loop_ok fuel n inputs (init nrows ncols)
              (game_ok_init nrows ncols Hr Hc) Hfuel)
    as (g' & Hrun & (_ & _ & _ & Hlive & Hover) & _).
  exists g'. auto.
Qed.

(** ** The further statements on concrete positions *)

Lemma make_move_effect_witness :
  fst (make_move win_board 6 2) = is_valid_move win_board 6 /\
  cell (snd (make_move win_board 6 2)) 5 6 = 2.
Proof.
  destruct (make_move_effect win_board 6 2 wf_win_board) as (Hok & _).
  split; [exact Hok | vm_compute; reflexivity].
Defined.

Lemma get_valid_moves_ascending_witness :
  StronglySorted Z.lt (get_valid_moves block_board) /\
  forall col, In col (get_valid_moves block_board) <->
              is_valid_move block_board col = true.
Proof. apply (get_valid_moves_ascending block_board). exact wf_block_board. Defined.

Lemma board_full_iff_no_valid_moves_witness :
  is_board_full full_board = true <-> get_valid_moves full_board = [].
Proof. apply (board_full_iff_no_valid_moves full_board). exact wf_full_board. Defined.

Lemma get_next_open_row_result_witness :
  (get_next_open_row full_board 3 = -1 <->
   forall r, 0 <= r < rows full_board -> cell full_board r 3 <> 0) /\
  (get_next_open_row full_board 3 <> -1 ->
   0 <= get_next_open_row full_board 3 < rows full_board /\
   cell full_board (get_next_open_row full_board 3) 3 = 0 /\
   forall r, get_next_open_row full_board 3 < r < rows full_board ->
             cell full_board r 3 <> 0).
Proof.
  apply (get_next_open_row_result full_board 3).
  - exact wf_full_board.
  - simpl. lia.
Defined.

Lemma make_move_fills_one_cell_witness :
  (fst (make_move block_board 3 2) = true ->
   empties block_board = S (empties (snd (make_move block_board 3 2)))) /\
  (fst (make_move block_board 3 2) = false ->
   empties (snd (make_move block_board 3 2)) = empties block_board).
Proof.
  apply (make_move_fills_one_cell block_board 3 2).
  - exact wf_block_board.
  - lia.
Defined.

Lemma win_survives_moves_witness :
  check_winner (play [(0, 1); (6, 1); (3, 2)] (place win_board 6 2)) 2 = true.
Proof.
  apply (win_survives_moves (place win_board 6 2) 2 [(0, 1); (6, 1); (3, 2)]).
  - apply wf_place. exact wf_win_board.
  - lia.
  - vm_compute. reflexivity.
Defined.

Lemma new_game_is_open_witness :
  empties (init 6 7) = 42%nat /\
  get_valid_moves (init 6 7) = range 0 7 /\
  check_winner (init 6 7) 2 = false /\
  is_board_full (init 6 7) = false.
Proof. apply (new_game_is_open 6 7 2); lia. Defined.

Lemma evaluate_board_bounded_witness :
  (-4 * window_count win_board <= evaluate_board win_board 2
     <= 3 * rows win_board + 100 * window_count win_board) /\
  (rows win_board * cols win_board <= 2000000 ->
   -1000000000 < evaluate_board win_board 2 < 1000000000).
Proof. apply (evaluate_board_bounded win_board 2). exact wf_win_board. Defined.


Lemma pruning_preserves_root_move_witness :
  minimax 43 3 NegInf PosInf true win_board =
  minimax_exhaustive 43 3 NegInf PosInf true win_board.
Proof.
  apply (pruning_preserves_root_move 43 3 true win_board).
  - exact wf_win_board.
  - vm_compute. lia.
Defined.

Lemma minimax_chooses_lowest_best_column_witness :
  exists best score,
    minimax 43 2 NegInf PosInf true block_board =
      Some ((Some best, Fin score), block_board) /\
    is_valid_move block_board best = true /\
    forall c, is_valid_move block_board c = true ->
      exists col' z,
        minimax 43 (2 - 1) NegInf PosInf false (place block_board c 2) =
          Some ((col', Fin z), place block_board c 2) /\
        z <= score /\ (c < best -> z < score) /\ (c = best -> z = score).
Proof.
  apply (minimax_chooses_lowest_best_column 43 2 block_board).
  - exact wf_block_board.
  - vm_compute. lia.
  - lia.
  - vm_compute. reflexivity.
  - vm_compute. reflexivity.
  - vm_compute. reflexivity.
Defined.

Lemma ai_turn_never_fails_witness :
  exists col g',
    ai_turn 43 block_board = State g' /\
    is_valid_move block_board col = true /\
    board g' = board (snd (make_move block_board col 2)) /\
    current_player g' = 3 - current_player block_board.
Proof.
  apply (ai_turn_never_fails 43 block_board).
  - exact wf_block_board.
  - vm_compute. lia.
  - vm_compute. reflexivity.
  - vm_compute. reflexivity.
  - vm_compute. reflexivity.
Defined.

Lemma game_loop_never_fails_witness :
  exists g',
    game_loop 43 6 [Some 3; None; Some 9; Some 3] (init 6 7) = State g' /\
    wf g' /\ rows g' = 6 /\ cols g' = 7 /\
    (current_player g' = 1 \/ current_player g' = 2) /\
    pieces g' 1 = (pieces g' 2 + (if (current_player g' =? 2)%Z then 1 else 0))%nat.
Proof.
  apply (game_loop_never_fails 6 7 43 6 [Some 3; None; Some 9; Some 3]); lia.
Defined.

Lemma game_loop_reports_result_witness :
  exists g',
    game_loop 43 6 [Some 3; None; Some 9; Some 3] (init 6 7) = State g' /\
    (game_over g' = false ->
     check_winner g' 1 = false /\ check_winner g' 2 = false /\
     is_board_full g' = false /\ winner g' = None) /\
    (game_over g' = true ->
     (winner g' = Some 1 /\ check_winner g' 1 = true) \/
     (winner g' = Some 2 /\ check_winner g' 2 = true) \/
     (winner g' = None /\ is_board_full g' = true /\
      check_winner g' 1 = false /\ check_winner g' 2 = false)).
Proof.
  apply (game_loop_reports_result 6 7 43 6 [Some 3; None; Some 9; Some 3]); lia.
Defined.

(** X17. The automated player never misses a win in one: if some valid
    column gives PlayerB four in a row, its turn ends the game with
    [winner] 2 and PlayerB's four in a row on the board (with any fuel,
    none included: the search is not needed). *)
Theorem ai_turn_takes_immediate_win :
  forall (fuel : nat) (g : ConnectFour) (c : Z),
    wf g -> is_valid_move g c = true ->
    check_winner (snd (make_move g c 2)) 2 = true ->
    exists g',
      ai_turn fuel g = State g' /\
      game_over g' = true /\ winner g' = Some 2 /\ check_winner g' 2 = true.
Proof.
  intros fuel g c Hwf Hv Hwin. pose proof Hwf as (Hrows & _).
  rewrite make_move_valid in Hwin by assumption. cbn [snd] in Hwin.
  unfold ai_turn. rewrite get_ai_move_unfold by exact Hwf.
  destruct (List.find (fun col => check_winner (child g col 2) 2) (get_valid_moves g))
    as [col|] eqn:Hfind.
  - apply find_some in Hfind. destruct Hfind as (Hin & Hcol).
    apply In_get_valid_moves in Hin.
    rewrite make_move_valid by assumption. cbn [snd].
    fold (child g col 2). rewrite Hcol.
    eexists. split; [reflexivity|].
    unfold end_of_turn. cbn [game_over with_winner with_game_over negb].
    rewrite andb_false_r. cbn [with_current_player game_over winner].
    split; [reflexivity|]. split; [reflexivity|]. exact Hcol.
  - exfalso. pose proof (find_none _ _ Hfind c) as Hc. cbv beta in Hc.
    fold (child g c 2) in Hwin. rewrite Hwin in Hc.
    assert (true = false) by (apply Hc; apply In_get_valid_moves; exact Hv).
    discriminate.
Qed.

Lemma ai_turn_takes_immediate_win_witness :
  exists g',
    ai_turn 0 win_board = State g' /\
    game_over g' = true /\ winner g' = Some 2 /\ check_winner g' 2 = true.
Proof.
  apply (ai_turn_takes_immediate_win 0 win_board 6).
  - exact wf_win_board.
  - vm_compute. reflexivity.
  - vm_compute. reflexivity.
Defined.
